(** * chronoquant: candle synchronisation and rolling-maximum percentiles

    A shallow embedding of [database_codes/data_sync.py] (the synchroniser)
    and [prep_target.py] (the feature calculator), together with the
    properties of the two programs that the specification states.

    Conventions.
    - Python integers are unbounded and are modelled by [Z]; Python's [%]
      with a positive divisor is [Z.modulo] (result in [0, d)).
    - 64-bit floating point columns are modelled by exact rationals
      extended with the IEEE special values (type [float] below): rounding
      and the sign of zero are not modelled.
    - SQL text is compared bytewise (SQLite's BINARY collation).
    - The declaration of the candle table is not among the sources: the
      table is keyed by [open_time_ms] and kept in the order of that key,
      as the specification describes it. *)

From Stdlib Require Import ZArith QArith Qcanon Qround Bool List Ascii String Lia Lqa.
From Stdlib Require Import Sorted Permutation.
Import ListNotations.

Local Open Scope Z_scope.

(* ===================================================================== *)
(** ** Bounded universal checks over integer ranges *)
(* ===================================================================== *)

Module Range.

(** [all_from f p base] checks [f] on the [p] integers [base, base + p). *)
Fixpoint all_from (f : Z -> bool) (p : positive) (base : Z) : bool :=
  match p with
  | xH => f base
  | xO q => all_from f q base && all_from f q (base + Zpos q)
  | xI q => f base && all_from f q (base + 1) && all_from f q (base + 1 + Zpos q)
  end.

End Range.

(* ===================================================================== *)
(** ** The proleptic Gregorian calendar *)
(* ===================================================================== *)

(** [pd.to_datetime(..., unit="ms", utc=True)] followed by
    [strftime("%Y-%m-%d %H:%M")] turns a count of milliseconds since
    1970-01-01T00:00:00Z into calendar fields.  The conversion is that of the
    proleptic Gregorian calendar, computed era by era (an era is 400 years,
    146097 days, starting on a 1st of March). *)

Module Calendar.

Definition days_per_era : Z := 146097.
Definition epoch_shift : Z := 719468.   (* days from 0000-03-01 to 1970-01-01 *)

(** Day of era [0, 146096] to (year of era, month, day). *)
Definition civil_of_doe (doe : Z) : Z * Z * Z :=
  let yoe := (doe - doe / 1460 + doe / 36524 - doe / 146096) / 365 in
  let doy := doe - (365 * yoe + yoe / 4 - yoe / 100) in
  let mp := (5 * doy + 2) / 153 in
  let d := doy - (153 * mp + 2) / 5 + 1 in
  let m := if mp <? 10 then mp + 3 else mp - 9 in
  (yoe, m, d).

(** Days since 1970-01-01 to (year, month, day). *)
Definition civil_from_days (z : Z) : Z * Z * Z :=
  let z' := z + epoch_shift in
  let era := z' / days_per_era in
  let doe := z' mod days_per_era in
  let '(yoe, m, d) := civil_of_doe doe in
  (yoe + era * 400 + (if m <=? 2 then 1 else 0), m, d).

(** (year of era, month, day), the year starting in March, to day of era. *)
Definition doe_of_civil (yoe m d : Z) : Z :=
  let mp := if 2 <? m then m - 3 else m + 9 in
  let doy := (153 * mp + 2) / 5 + d - 1 in
  yoe * 365 + yoe / 4 - yoe / 100 + doy.

(** (year, month, day) to days since 1970-01-01. *)
Definition days_from_civil (y m d : Z) : Z :=
  let y' := y - (if m <=? 2 then 1 else 0) in
  let era := y' / 400 in
  let yoe := y' mod 400 in
  era * days_per_era + doe_of_civil yoe m d - epoch_shift.

Definition is_leap (y : Z) : bool :=
  (y mod 4 =? 0) && (negb (y mod 100 =? 0) || (y mod 400 =? 0)).

Definition days_in_month (y m : Z) : Z :=
  if m =? 2 then (if is_leap y then 29 else 28)
  else if (m =? 4) || (m =? 6) || (m =? 9) || (m =? 11) then 30
  else 31.

Definition valid_date (y m d : Z) : bool :=
  (1 <=? m) && (m <=? 12) && (1 <=? d) && (d <=? days_in_month y m).

(** The date of a day of an era, the year counted from the era's start. *)
Definition date_of_doe (doe : Z) : Z * Z * Z :=
  let '(yoe, m, d) := civil_of_doe doe in
  (yoe + (if m <=? 2 then 1 else 0), m, d).

(** Dates in calendar order. *)
Definition date_ltb (a b : Z * Z * Z) : bool :=
  let '(y1, m1, d1) := a in
  let '(y2, m2, d2) := b in
  (y1 <? y2) || ((y1 =? y2) && ((m1 <? m2) || ((m1 =? m2) && (d1 <? d2)))).

(** The check made on each day of one era: the date is valid, it
    determines the day, and the next day of the era has a later date. *)
Definition era_day_ok (doe : Z) : bool :=
  let '(yoe, m, d) := civil_of_doe doe in
  (0 <=? yoe) && (yoe <=? 399)
  && (doe_of_civil yoe m d =? doe)
  && valid_date (yoe + (if m <=? 2 then 1 else 0)) m d
  && ((doe =? days_per_era - 1) || date_ltb (date_of_doe doe) (date_of_doe (doe + 1))).

End Calendar.

(* ===================================================================== *)
(** ** Floating point columns *)
(* ===================================================================== *)

(** A [real] is a stored SQLite REAL: a finite number or an infinity.  SQLite
    has no NaN: binding a NaN stores NULL.  A [float] is a pandas float64
    cell: a [real] or NaN.  Finite numbers are exact rationals. *)

Module Float.

Inductive real : Type :=
  | Fin (q : Qc)
  | PInf
  | NInf.

Inductive float : Type :=
  | Num (r : real)
  | NaN.

Definition Qcleb (a b : Qc) : bool := Qle_bool a b.
Definition Qceqb (a b : Qc) : bool := Qeq_bool a b.

Definition of_Z (z : Z) : float := Num (Fin (Q2Qc (inject_Z z))).
Definition of_Q (q : Q) : float := Num (Fin (Q2Qc q)).

(** The order of the non-NaN values. *)
Definition real_leb (a b : real) : bool :=
  match a, b with
  | NInf, _ => true
  | _, PInf => true
  | Fin x, Fin y => Qcleb x y
  | _, _ => false
  end.

Definition real_le (a b : real) : Prop := real_leb a b = true.

Definition real_max (a b : real) : real := if real_leb a b then b else a.

(** The rational behind a finite cell. *)
Definition to_Q (x : float) : option Q :=
  match x with Num (Fin q) => Some (this q) | _ => None end.

(** Sign of a finite number: [Gt] for positive, [Eq] for zero. *)
Definition Qcsign (q : Qc) : comparison := (q ?= 0)%Qc.

Definition real_neg (a : real) : real :=
  match a with Fin q => Fin (- q)%Qc | PInf => NInf | NInf => PInf end.

Definition fneg (x : float) : float :=
  match x with Num r => Num (real_neg r) | NaN => NaN end.

Definition fadd (x y : float) : float :=
  match x, y with
  | Num (Fin a), Num (Fin b) => Num (Fin (a + b)%Qc)
  | Num PInf, Num NInf | Num NInf, Num PInf => NaN
  | Num PInf, Num _ | Num _, Num PInf => Num PInf
  | Num NInf, Num _ | Num _, Num NInf => Num NInf
  | _, _ => NaN
  end.

Definition fsub (x y : float) : float := fadd x (fneg y).

(** An infinity with the sign of [s], NaN when [s] is zero. *)
Definition signed_inf (s : comparison) (positive_inf : bool) : float :=
  match s with
  | Eq => NaN
  | Gt => Num (if positive_inf then PInf else NInf)
  | Lt => Num (if positive_inf then NInf else PInf)
  end.

Definition fmul (x y : float) : float :=
  match x, y with
  | Num (Fin a), Num (Fin b) => Num (Fin (a * b)%Qc)
  | Num (Fin a), Num PInf | Num PInf, Num (Fin a) => signed_inf (Qcsign a) true
  | Num (Fin a), Num NInf | Num NInf, Num (Fin a) => signed_inf (Qcsign a) false
  | Num PInf, Num PInf | Num NInf, Num NInf => Num PInf
  | Num PInf, Num NInf | Num NInf, Num PInf => Num NInf
  | _, _ => NaN
  end.

(** Division: a non-zero number over zero is an infinity, zero over zero
    and infinity over infinity are NaN, a finite number over an infinity
    is zero. *)
Definition fdiv (x y : float) : float :=
  match x, y with
  | Num (Fin a), Num (Fin b) =>
      if Qceqb b 0 then signed_inf (Qcsign a) true
      else Num (Fin (a / b)%Qc)
  | Num (Fin _), Num PInf | Num (Fin _), Num NInf => Num (Fin 0%Qc)
  | Num PInf, Num (Fin b) =>
      match Qcsign b with Lt => Num NInf | _ => Num PInf end
  | Num NInf, Num (Fin b) =>
      match Qcsign b with Lt => Num PInf | _ => Num NInf end
  | _, _ => NaN
  end.

(** [dropna]: the non-NaN cells, in order. *)
Fixpoint dropna (xs : list float) : list real :=
  match xs with
  | [] => []
  | Num r :: t => r :: dropna t
  | NaN :: t => dropna t
  end.

(** [m] is a greatest element of [l]. *)
Definition greatest (m : real) (l : list real) : Prop :=
  In m l /\ forall c, In c l -> real_le c m.

End Float.

(* ===================================================================== *)
(** ** Timestamps and their display form *)
(* ===================================================================== *)

(** pandas keeps a UTC timestamp as a signed 64-bit count of nanoseconds
    since the epoch; the smallest 64-bit value is reserved (NaT).  A value
    outside the bounds raises. *)

Module Timestamp.

Definition ns_max : Z := 9223372036854775807.
Definition ns_min : Z := - 9223372036854775807.

Definition in_bounds (ns : Z) : bool := (ns_min <=? ns) && (ns <=? ns_max).

Definition ns_per_ms : Z := 1000000.
Definition ns_per_minute : Z := 60000000000.
Definition ns_per_hour : Z := 3600000000000.

(** [pd.to_datetime(ms, unit="ms", utc=True)] *)
Definition to_datetime_ms (ms : Z) : option Z :=
  let ns := ms * ns_per_ms in
  if in_bounds ns then Some ns else None.

(** [ts + pd.Timedelta(hours=h)] *)
Definition add_hours (ns h : Z) : option Z :=
  let r := ns + h * ns_per_hour in
  if in_bounds r then Some r else None.

(** [ts.floor("min")] *)
Definition floor_min (ns : Z) : option Z :=
  let r := ns - ns mod ns_per_minute in
  if in_bounds r then Some r else None.

Definition digit (n : Z) : ascii := ascii_of_N (48 + Z.to_N n).

Definition pad2 (n : Z) : string :=
  String (digit (n / 10)) (String (digit (n mod 10)) EmptyString).

Definition pad4 (n : Z) : string :=
  String (digit (n / 1000)) (String (digit (n / 100 mod 10)) (pad2 (n mod 100))).

(** The text [YYYY-MM-DD HH:MM] of five calendar fields. *)
Definition format_fields (y m d hh mm : Z) : string :=
  (pad4 y ++ "-" ++ pad2 m ++ "-" ++ pad2 d ++ " " ++ pad2 hh ++ ":" ++ pad2 mm)%string.

(** [ts.strftime("%Y-%m-%d %H:%M")] *)
Definition strftime (ns : Z) : string :=
  let minutes := ns / ns_per_minute in
  let '(y, m, d) := Calendar.civil_from_days (minutes / 1440) in
  format_fields y m d (minutes mod 1440 / 60) (minutes mod 60).

(** [datetime(y, m, d, hh, mm, ss, tzinfo=timezone.utc).timestamp()],
    in whole seconds. *)
Definition datetime_utc_timestamp (y m d hh mm ss : Z) : Z :=
  Calendar.days_from_civil y m d * 86400 + hh * 3600 + mm * 60 + ss.

(** Reading a display string back: the instant, in milliseconds since the
    epoch, that the text [YYYY-MM-DD HH:MM] names when read as a UTC
    civil time. *)
Definition digit_value (c : ascii) : option Z :=
  let n := Z.of_N (N_of_ascii c) in
  if (48 <=? n) && (n <=? 57) then Some (n - 48) else None.

Fixpoint read_digits (k : nat) (acc : Z) (s : string) : option (Z * string) :=
  match k with
  | O => Some (acc, s)
  | S k' =>
      match s with
      | String c rest =>
          match digit_value c with
          | Some v => read_digits k' (10 * acc + v) rest
          | None => None
          end
      | EmptyString => None
      end
  end.

Definition expect (c : ascii) (s : string) : option string :=
  match s with
  | String c' rest => if Ascii.eqb c c' then Some rest else None
  | EmptyString => None
  end.

Definition read_display (s : string) : option Z :=
  match read_digits 4 0 s with
  | Some (y, s1) =>
  match expect "-" s1 with Some s2 =>
  match read_digits 2 0 s2 with Some (m, s3) =>
  match expect "-" s3 with Some s4 =>
  match read_digits 2 0 s4 with Some (d, s5) =>
  match expect " " s5 with Some s6 =>
  match read_digits 2 0 s6 with Some (hh, s7) =>
  match expect ":" s7 with Some s8 =>
  match read_digits 2 0 s8 with Some (mm, EmptyString) =>
    if Calendar.valid_date y m d && (hh <? 24) && (mm <? 60)
    then Some ((Calendar.days_from_civil y m d * 1440 + hh * 60 + mm) * 60000)
    else None
  | _ => None end | None => None end | None => None end | None => None end
  | None => None end | None => None end | None => None end | None => None end
  | None => None
  end.

End Timestamp.

(* ===================================================================== *)
(** ** The candle table *)
(* ===================================================================== *)

Module Store.

Import Float.

(** One stored row.  A numeric column holds a number or NULL ([None]). *)
Record Candle : Type := mkCandle {
  open_time_ms : Z;
  open_time : string;
  open : option real;
  high : option real;
  low : option real;
  close : option real;
  volume : option real
}.

(** The rows of the table in the order a scan visits them: the order of
    the key, see [insert_or_ignore]. *)
Definition table : Type := list Candle.

Definition keys (t : table) : list Z := map open_time_ms t.

Definition has_key (k : Z) (t : table) : bool :=
  existsb (fun r => open_time_ms r =? k) t.

Definition lookup (k : Z) (t : table) : option Candle :=
  find (fun r => open_time_ms r =? k) t.

(** The place of a new row among the stored ones: before the first row
    with a greater key. *)
Fixpoint insert_by_key (r : Candle) (t : table) : table :=
  match t with
  | [] => [r]
  | x :: t' =>
      if open_time_ms r <? open_time_ms x then r :: t
      else x :: insert_by_key r t'
  end.

(** Modelled from the spec: the declaration of the table is not among the
    sources.  The specification makes [open_time_ms] the identity key of a
    candle, "the source of truth for ordering and deduplication" (the
    program's comment calls it the PK), and the stored state independent of
    the order of insertion.  So the rows are kept by key:
    [INSERT OR IGNORE INTO table (...) VALUES (...)] skips a row whose key
    is present and otherwise puts the row at its place in key order, and a
    scan visits the rows in ascending order of [open_time_ms]. *)
Definition insert_or_ignore (t : table) (r : Candle) : table :=
  if has_key (open_time_ms r) t then t else insert_by_key r t.


(** [cursor.executemany("INSERT OR IGNORE ...", records)] *)
Definition executemany (t : table) (records : list Candle) : table :=
  fold_left insert_or_ignore records t.

(** [SELECT MAX(open_time_ms) FROM table]: NULL on an empty table. *)
Definition select_max (t : table) : option Z :=
  match keys t with
  | [] => None
  | k :: ks => Some (fold_left Z.max ks k)
  end.

(** [x BETWEEN a AND b] on text. *)
Definition between (a b x : string) : bool := String.leb a x && String.leb x b.

(** [SELECT open_time, close FROM table WHERE open_time BETWEEN ? AND ?]:
    the matching rows in scan order, that is in key order; the statement
    has no ORDER BY of its own. *)
Definition select_range (t : table) (a b : string) : list (string * option real) :=
  map (fun r => (open_time r, close r))
      (filter (fun r => between a b (open_time r)) t).


(** The key constraint of the table. *)
Definition unique_keys (t : table) : Prop := NoDup (keys t).

(** How many rows carry the key [k]. *)
Definition count_key (k : Z) (t : table) : nat :=
  List.length (filter (fun r => open_time_ms r =? k) t).

(** How many rows have their display time in the closed range [a, b]. *)
Definition count_in_range (t : table) (a b : string) : nat :=
  List.length (filter (fun r => between a b (open_time r)) t).

End Store.

(* ===================================================================== *)
(** ** database_codes/data_sync.py *)
(* ===================================================================== *)

Module Sync.

Import Float Store.

(** One row of [client.get_historical_klines]: the exchange sends the two
    times and the trade count as integers and every amount as text. *)
Record kline : Type := mkKline {
  k_open_time : Z;
  k_open : string;
  k_high : string;
  k_low : string;
  k_close : string;
  k_volume : string;
  k_close_time : Z;
  k_quote_asset_volume : string;
  k_number_of_trades : Z;
  k_taker_buy_base : string;
  k_taker_buy_quote : string;
  k_ignore : string
}.

(** The exchange collaborator, for the configured symbol and interval. *)
Record exchange : Type := mkExchange {
  get_server_time : Z;
  get_historical_klines : Z -> Z -> list kline
}.

Inductive error : Type :=
  | OverflowError            (* astype("int64") of an integer that does not fit *)
  | OutOfBoundsDatetime.     (* a timestamp outside the nanosecond range *)

Inductive message : Type :=
  | NoNewData                              (* "No new data to sync." *)
  | NoDataReturned                         (* "No data returned by Binance." *)
  | InsertedRows (n : nat)                 (* "Inserted rows: N" *)
  | RangeInserted (first last : string).   (* "Range inserted: a -> b" *)

(** What a run does to its collaborators, in order. *)
Inductive event : Type :=
  | SelectMax
  | ServerTime
  | FetchKlines (start_ms end_ms : Z)
  | InsertMany (records : list Candle)
  | Commit
  | Print (m : message).

(** The three ways [sync_data] returns. *)
Inductive sync_result : Type :=
  | NothingToDo
  | NoData
  | Synced (submitted : nat).

Record world : Type := mkWorld {
  db : table;
  log : list event
}.

(** Computations that read and write the world and may fail. *)
Definition M (A : Type) : Type := world -> (error + A) * world.

Definition ret {A} (a : A) : M A := fun w => (inr a, w).

Definition bind {A B} (c : M A) (k : A -> M B) : M B :=
  fun w => match c w with
           | (inl e, w') => (inl e, w')
           | (inr a, w') => k a w'
           end.

Definition emit (ev : event) : M unit :=
  fun w => (inr tt, mkWorld (db w) (log w ++ [ev])).

Definition lift {A} (r : error + A) : M A := fun w => (r, w).

Notation "x <- c ;; k" := (bind c (fun x => k))
  (at level 61, c at next level, right associativity).
Notation "c ;;; k" := (bind c (fun _ => k))
  (at level 61, right associativity).

Definition is_fetch (ev : event) : bool :=
  match ev with FetchKlines _ _ => true | _ => false end.

Definition is_write (ev : event) : bool :=
  match ev with InsertMany _ | Commit => true | _ => false end.

Definition interval_ms : Z := 60000.

(** [int(datetime(2017, 1, 1, 0, 0, 0, tzinfo=timezone.utc).timestamp() * 1000)] *)
Definition epoch_floor_ms : Z :=
  Timestamp.datetime_utc_timestamp 2017 1 1 0 0 0 * 1000.

(** [cursor.execute("SELECT MAX(open_time_ms) ..."); cursor.fetchone()]:
    an aggregate query always yields one row. *)
Definition fetchone_max : M (option (option Z)) :=
  fun w => (inr (Some (select_max (db w))), mkWorld (db w) (log w ++ [SelectMax])).

Definition start_ms_of_row (row : option (option Z)) : Z :=
  match row with
  | None | Some None => epoch_floor_ms
  | Some (Some last) => last + interval_ms
  end.

(** The start of the fetch window, as a function of the stored table. *)
Definition start_ms (t : table) : Z := start_ms_of_row (Some (select_max t)).

(** [server_ms - (server_ms % 60_000)] *)
Definition end_ms (server_ms : Z) : Z := server_ms - server_ms mod interval_ms.

Definition int64_min : Z := - 9223372036854775808.
Definition int64_max : Z := 9223372036854775807.

(** [df["open_time"].astype("int64")] on a column of integers that fit
    64 bits.  An integer that does not fit is made an error here; what the
    program does with one depends on the type the whole column takes (a
    column of unsigned 64-bit numbers wraps around), so the properties
    below are stated for open times within [ms_lo, ms_hi] only. *)
Definition astype_int64 (z : Z) : error + Z :=
  if (int64_min <=? z) && (z <=? int64_max) then inr z else inl OverflowError.

(** The open times for which a display string exists: those whose
    two-hour shift stays inside the nanosecond range. *)
Definition ms_lo : Z := - 9223372036854.
Definition ms_hi : Z := 9223364836854.

(** The display string of a candle: UTC shifted by two hours, floored to
    the minute, formatted.  Within [ms_lo, ms_hi] every step stays inside
    the nanosecond range.  Outside it the outcome (an error, or the missing
    timestamp NaT for the smallest 64-bit number) depends on the version of
    pandas; it is made an error here, and the properties below are stated
    for open times within [ms_lo, ms_hi] only. *)
Definition display_time (ms : Z) : error + string :=
  match Timestamp.to_datetime_ms ms with
  | None => inl OutOfBoundsDatetime
  | Some utc =>
      match Timestamp.add_hours utc 2 with
      | None => inl OutOfBoundsDatetime
      | Some shifted =>
          match Timestamp.floor_min shifted with
          | None => inl OutOfBoundsDatetime
          | Some local => inr (Timestamp.strftime local)
          end
      end
  end.

(** The display string of an open time within [ms_lo, ms_hi], where no
    step leaves the bounds. *)
Definition display_text (ms : Z) : string :=
  let shifted := ms * Timestamp.ns_per_ms + 2 * Timestamp.ns_per_hour in
  Timestamp.strftime (shifted - shifted mod Timestamp.ns_per_minute).


(** The numbers sqlite3 binds as they are: those strictly between
    [- 2^63] and [2^63].  [pd.to_numeric] gives a column of integer texts an
    integer type, and an integer of [2^63] or more is refused when it is
    bound; the properties below that need a row to be written are stated for
    batches whose numeric cells are in this range. *)
Definition int_bound : Qc := Q2Qc (inject_Z 9223372036854775808).

Definition fits_int64 (x : float) : Prop :=
  match x with
  | Num (Fin q) => (- int_bound < q)%Qc /\ (q < int_bound)%Qc
  | _ => True
  end.

(** [float('nan')] bound to a statement parameter is stored as NULL. *)
Definition bind_float (x : float) : option real :=
  match x with Num r => Some r | NaN => None end.

Fixpoint map_result {A B} (f : A -> error + B) (l : list A) : error + list B :=
  match l with
  | [] => inr []
  | a :: l' =>
      match f a with
      | inl e => inl e
      | inr b =>
          match map_result f l' with
          | inl e => inl e
          | inr bs => inr (b :: bs)
          end
      end
  end.

Fixpoint string_min (s : string) (l : list string) : string :=
  match l with
  | [] => s
  | x :: l' => string_min (if String.ltb x s then x else s) l'
  end.

Fixpoint string_max (s : string) (l : list string) : string :=
  match l with
  | [] => s
  | x :: l' => string_max (if String.ltb s x then x else s) l'
  end.

(** The five numeric columns. *)
Inductive numfield : Type := FOpen | FHigh | FLow | FClose | FVolume.

Definition raw_field (f : numfield) (k : kline) : string :=
  match f with
  | FOpen => k_open k
  | FHigh => k_high k
  | FLow => k_low k
  | FClose => k_close k
  | FVolume => k_volume k
  end.


Section WithParser.

(** The numeric reader behind [pd.to_numeric]: [None] when the text is
    not a number. *)
Variable parse : string -> option float.

(** [pd.to_numeric(column, errors="coerce")], cell by cell, for a column
    of type float64 (or of integers that [fits_int64]). *)
Definition to_numeric_coerce (s : string) : float :=
  match parse s with
  | Some x => x
  | None => NaN
  end.

(** The record of a raw row, given its key and its display string. *)
Definition row_record (k : kline) (ms : Z) (shown : string) : Candle :=
  {| open_time_ms := ms;
     open_time := shown;
     open := bind_float (to_numeric_coerce (k_open k));
     high := bind_float (to_numeric_coerce (k_high k));
     low := bind_float (to_numeric_coerce (k_low k));
     close := bind_float (to_numeric_coerce (k_close k));
     volume := bind_float (to_numeric_coerce (k_volume k)) |}.

(** From the fetched rows to the records handed to the INSERT.  The frame
    is transformed column by column: first [open_time_ms], then the display
    strings (either step may raise), then the numeric columns. *)
Definition normalize_batch (raw : list kline) : error + list Candle :=
  match map_result astype_int64 (map k_open_time raw) with
  | inl e => inl e
  | inr open_time_ms_col =>
      match map_result display_time open_time_ms_col with
      | inl e => inl e
      | inr open_time_col =>
          inr (map (fun p => row_record (fst p) (fst (snd p)) (snd (snd p)))
                   (combine raw (combine open_time_ms_col open_time_col)))
      end
  end.

(** The record of a raw row whose open time is within [ms_lo, ms_hi]. *)
Definition normalized (k : kline) : Candle :=
  row_record k (k_open_time k) (display_text (k_open_time k)).

(** The batches that are read as above: every open time is within
    [ms_lo, ms_hi] and every numeric cell that parses [fits_int64]. *)
Definition plain_batch (raw : list kline) : Prop :=
  forall k, In k raw ->
    ms_lo <= k_open_time k <= ms_hi
    /\ forall f, fits_int64 (to_numeric_coerce (raw_field f k)).

Definition insert_many (records : list Candle) : M unit :=
  fun w => (inr tt, mkWorld (executemany (db w) records)
                            (log w ++ [InsertMany records])).

Definition range_message (records : list Candle) : message :=
  match map open_time records with
  | [] => RangeInserted EmptyString EmptyString
  | s :: l => RangeInserted (string_min s l) (string_max s l)
  end.

Definition sync_data (ex : exchange) : M sync_result :=
  row <- fetchone_max ;;
  let start := start_ms_of_row row in
  emit ServerTime ;;;
  let server_ms := get_server_time ex in
  let stop := end_ms server_ms in
  if start >=? stop then
    emit (Print NoNewData) ;;; ret NothingToDo
  else
    emit (FetchKlines start stop) ;;;
    let raw_data := get_historical_klines ex start stop in
    match raw_data with
    | [] => emit (Print NoDataReturned) ;;; ret NoData
    | _ :: _ =>
        records <- lift (normalize_batch raw_data) ;;
        insert_many records ;;;
        emit Commit ;;;
        emit (Print (InsertedRows (List.length records))) ;;;
        emit (Print (range_message records)) ;;;
        ret (Synced (List.length records))
    end.

End WithParser.

(** A reader of plain decimal numerals: an optional sign, digits, and an
    optional fractional part. *)
Fixpoint read_decimal (s : string) (seen_dot : bool) (ndigits : nat)
    (mant : Z) (scale : N) : option Q :=
  match s with
  | EmptyString =>
      match ndigits with
      | O => None
      | S _ => Some (inject_Z mant / inject_Z (10 ^ Z.of_N scale))%Q
      end
  | String c rest =>
      if Ascii.eqb c "." then
        if seen_dot then None else read_decimal rest true ndigits mant scale
      else
        match Timestamp.digit_value c with
        | Some v =>
            read_decimal rest seen_dot (S ndigits) (10 * mant + v)
                         (if seen_dot then N.succ scale else scale)
        | None => None
        end
  end.

Definition parse_decimal (s : string) : option float :=
  match s with
  | String "-" rest =>
      option_map (fun q => Num (Fin (Q2Qc (- q)))) (read_decimal rest false 0 0 0)
  | _ => option_map (fun q => Num (Fin (Q2Qc q))) (read_decimal s false 0 0 0)
  end.

End Sync.

(* ===================================================================== *)
(** ** prep_target.py *)
(* ===================================================================== *)

Module PrepTarget.

Import Float Store.

Inductive error : Type :=
  | EmptyRange        (* ValueError("No data found for the given time range.") *)
  | InvalidWindow     (* ValueError raised by [rolling] for a window below 1 *)
  | KeyError.         (* no "p50", "p75", "p90" among the rows of [describe] *)

(** The type of the [close] column of the frame.  A column in which every
    cell is NULL stays a column of objects ([None]); a number among the
    cells makes it float64. *)
Definition object_column (cells : list (option real)) : bool :=
  forallb (fun c => match c with None => true | Some _ => false end) cells.

(** A NULL read into a float64 column is NaN. *)
Definition read_float (c : option real) : float :=
  match c with Some r => Num r | None => NaN end.

(** [pd.read_sql_query(query, conn, params=(open_time_from, open_time_to))]:
    the frame's two columns, row by row, with [close] as float64. *)
Definition read_sql_query (t : table) (a b : string) : list (string * float) :=
  map (fun row => (fst row, read_float (snd row))) (select_range t a b).


(** *** [Series.rolling(window, min_periods).max()] *)

(** Rows [start, stop) of a column. *)
Definition slice {A} (l : list A) (start stop : nat) : list A :=
  firstn (stop - start) (skipn start l).

(** [rolling] replaces the infinities by NaN before it aggregates. *)
Definition prep_value (x : float) : float :=
  match x with
  | Num (Fin q) => Num (Fin q)
  | _ => NaN
  end.

Definition prep_values (xs : list float) : list float := map prep_value xs.

(** The running maximum of the observations of one window; NaN cells are
    not observations. *)
Definition max_step (acc : option real) (x : float) : option real :=
  match x, acc with
  | NaN, _ => acc
  | Num r, None => Some r
  | Num r, Some m => Some (real_max m r)
  end.

Definition count_obs (win : list float) : nat := List.length (dropna win).

Definition window_max (min_periods : nat) (win : list float) : float :=
  match fold_left max_step win None with
  | Some m => if (min_periods <=? count_obs win)%nat then Num m else NaN
  | None => NaN
  end.

(** Row [i] aggregates rows [max(0, i + 1 - window), i + 1). *)
Definition rolling_max (window min_periods : nat) (xs : list float) : list float :=
  let values := prep_values xs in
  map (fun i => window_max min_periods (slice values (i + 1 - window) (i + 1)))
      (seq 0 (List.length values)).

(** [df["rolling_max"] / df["close"]], row by row. *)
Definition ratio_column (rolling close : list float) : list float :=
  map (fun p => fdiv (fst p) (snd p)) (combine rolling close).

(** *** [Series.describe(percentiles=[0.5, 0.75, 0.9])] *)

Fixpoint insert_sorted (x : real) (l : list real) : list real :=
  match l with
  | [] => [x]
  | y :: l' => if real_leb x y then x :: l else y :: insert_sorted x l'
  end.

Definition sort (l : list real) : list real := fold_right insert_sorted [] l.

(** [arr[i]] with Python's negative indices. *)
Definition getitem (arr : list real) (i : Z) : float :=
  let j := if i <? 0 then i + Z.of_nat (List.length arr) else i in
  if j <? 0 then NaN
  else match nth_error arr (Z.to_nat j) with
       | Some r => Num r
       | None => NaN
       end.

(** Linear interpolation between two neighbours, computed from the upper
    one when the weight is at least one half. *)
Definition lerp (a b : float) (t : Qc) : float :=
  let diff := fsub b a in
  if Qcleb (Q2Qc (1 # 2)) t
  then fsub b (fmul diff (Num (Fin (1 - t)%Qc)))
  else fadd a (fmul diff (Num (Fin t))).

(** The [q]-quantile of a sorted sample of size at least one, with linear
    interpolation: the virtual index is [q * (n - 1)]. *)
Definition quantile_sorted (arr : list real) (q : Qc) : float :=
  let n := Z.of_nat (List.length arr) in
  let virtual := (q * Q2Qc (inject_Z (n - 1)))%Qc in
  let above := Qcleb (Q2Qc (inject_Z (n - 1))) virtual in
  let below := negb (Qcleb 0%Qc virtual) in
  let previous :=
    if above then -1 else if below then 0 else Qfloor virtual in
  let next :=
    if above then -1 else if below then 0 else Qfloor virtual + 1 in
  let gamma := (virtual - Q2Qc (inject_Z previous))%Qc in
  lerp (getitem arr previous) (getitem arr next) gamma.

(** [Series.quantile(q)]: NaN cells are dropped first; an empty sample
    gives NaN. *)
Definition quantile (xs : list float) (q : Qc) : float :=
  match dropna xs with
  | [] => NaN
  | sample => quantile_sorted (sort sample) q
  end.

(** The one-row frame that is returned. *)
Record percentiles : Type := mkPercentiles {
  p50 : float;
  p75 : float;
  p90 : float
}.

Definition describe_percentiles (ratio : list float) : percentiles :=
  {| p50 := quantile ratio (Q2Qc (5 # 10));
     p75 := quantile ratio (Q2Qc (75 # 100));
     p90 := quantile ratio (Q2Qc (9 # 10)) |}.

Definition min_periods : nat := 1.

(** The two derived columns for a column of closes. *)
Definition rolling_max_column (window : nat) (close : list float) : list float :=
  rolling_max window min_periods close.

Definition ratio_of_close (window : nat) (close : list float) : list float :=
  ratio_column (rolling_max_column window close) close.

(** The call.  An empty frame raises; so does a window below 1, when the
    rolling object is made.  When [close] is a column of objects the ratio
    is one too, [describe] then has no percentile rows, and selecting
    "p50", "p75", "p90" raises KeyError. *)
Definition calculate_target_percentiles
    (t : table) (open_time_from open_time_to : string) (window : Z)
    : error + percentiles :=
  let df := read_sql_query t open_time_from open_time_to in
  match df with
  | [] => inl EmptyRange
  | _ :: _ =>
      if window <? 1 then inl InvalidWindow
      else if object_column (map snd (select_range t open_time_from open_time_to))
      then inl KeyError
      else
        let close := map snd df in
        inr (describe_percentiles (ratio_of_close (Z.to_nat window) close))
  end.

End PrepTarget.

(* ===================================================================== *)
(** ** Sample data *)
(* ===================================================================== *)

Module Examples.

Import Float Store Sync PrepTarget.

(** A stored candle whose numeric columns all hold [c]. *)
Definition sample_candle (ms : Z) (shown : string) (c : option real) : Candle :=
  {| open_time_ms := ms; open_time := shown;
     open := c; high := c; low := c; close := c; volume := c |}.

(** A raw row whose four prices are the text [price]. *)
Definition sample_kline (ms : Z) (price : string) : kline :=
  {| k_open_time := ms; k_open := price; k_high := price; k_low := price;
     k_close := price; k_volume := "0.5"; k_close_time := ms + 59999;
     k_quote_asset_volume := "0"; k_number_of_trades := 1;
     k_taker_buy_base := "0"; k_taker_buy_quote := "0"; k_ignore := "0" |}.

(** A raw row whose close is not a number. *)
Definition bad_close_kline (ms : Z) : kline :=
  {| k_open_time := ms; k_open := "231.4"; k_high := "232.0"; k_low := "231.1";
     k_close := "n/a"; k_volume := "0.5"; k_close_time := ms + 59999;
     k_quote_asset_volume := "0"; k_number_of_trades := 1;
     k_taker_buy_base := "0"; k_taker_buy_quote := "0"; k_ignore := "0" |}.

(** An exchange that has nothing to send. *)
Definition quiet_exchange (server_ms : Z) : exchange :=
  {| get_server_time := server_ms; get_historical_klines := fun _ _ => [] |}.

(** An exchange whose batch has an unreadable close in its second row. *)
Definition three_row_exchange : exchange :=
  {| get_server_time := 1483228985000;
     get_historical_klines := fun _ _ =>
       [sample_kline 1483228800000 "230.9"] ++
       bad_close_kline 1483228860000 :: [sample_kline 1483228920000 "231.6"] |}.


(** A stored minute of 2024-01-01 with close [c]. *)
Definition example_row (minute : Z) (shown : string) (c : Z) : Candle :=
  {| open_time_ms := 1704060000000 + minute * 60000;
     open_time := shown;
     open := Some (Fin (Q2Qc (inject_Z c)));
     high := Some (Fin (Q2Qc (inject_Z c)));
     low := Some (Fin (Q2Qc (inject_Z c)));
     close := Some (Fin (Q2Qc (inject_Z c)));
     volume := Some (Fin 1%Qc) |}.

(** Five stored minutes with closes 10, 12, 11, 15, 9. *)
Definition example_table : table :=
  [example_row 0 "2024-01-01 00:00" 10;
   example_row 1 "2024-01-01 00:01" 12;
   example_row 2 "2024-01-01 00:02" 11;
   example_row 3 "2024-01-01 00:03" 15;
   example_row 4 "2024-01-01 00:04" 9].

Definition example_closes : list float := map of_Z [10; 12; 11; 15; 9].

Definition example_result : PrepTarget.error + percentiles :=
  calculate_target_percentiles example_table "2024-01-01 00:00" "2024-01-01 00:04" 3.


End Examples.

(* ===================================================================== *)
(** ** Sequences of runs, interpolation, more sample data *)
(* ===================================================================== *)

Module SyncRuns.

Import Float Store Sync.


End SyncRuns.

Module QuantileDefs.

Import Float.

(** Cell [k] of a list of rationals, zero outside it. *)
Definition nthq (qs : list Qc) (k : Z) : Qc := nth (Z.to_nat k) qs 0%Qc.

(** The piecewise linear function through the points [(k, nthq qs k)]. *)
Definition interp (qs : list Qc) (x : Qc) : Qc :=
  let p := Qfloor x in
  (nthq qs p + (nthq qs (p + 1) - nthq qs p) * (x - Q2Qc (inject_Z p)))%Qc.

(** The rational of a finite cell. *)
Definition fin_value (r : real) : Qc := match r with Fin q => q | _ => 0%Qc end.

End QuantileDefs.

Module MoreExamples.

Import Float Store Sync Examples.


(** An exchange that sends again a candle of the first minute. *)
Definition replaying_exchange : exchange :=
  {| get_server_time := 1483229100000;
     get_historical_klines := fun _ _ => [sample_kline 1483228800000 "999.9"] |}.

End MoreExamples.

(* ===================================================================== *)
(** ** Properties of range checks, of the calendar and of the order of cells *)
(* ===================================================================== *)

Module RangeFacts.

Import Range.

Lemma all_from_spec (f : Z -> bool) (p : positive) :
  forall base, all_from f p base = true ->
  forall z, base <= z < base + Zpos p -> f z = true.
Proof.
  induction p as [q IH | q IH | ]; intros base H z Hz; simpl in H.
  - apply andb_true_iff in H as [H H2]. apply andb_true_iff in H as [H0 H1].
    destruct (Z.eq_dec z base) as [-> | Hne]; [exact H0 |].
    destruct (Z_lt_dec z (base + 1 + Zpos q)).
    + apply (IH _ H1). lia.
    + apply (IH _ H2). lia.
  - apply andb_true_iff in H as [H1 H2].
    destruct (Z_lt_dec z (base + Zpos q)).
    + apply (IH _ H1). lia.
    + apply (IH _ H2). lia.
  - assert (z = base) by lia. subst z. exact H.
Qed.

End RangeFacts.

Module CalendarFacts.

Import Calendar.

Lemma era_days_ok : Range.all_from era_day_ok 146097 0 = true.
Proof. vm_compute. reflexivity. Qed.

Lemma era_day_ok_spec (doe : Z) :
  0 <= doe < days_per_era -> era_day_ok doe = true.
Proof.
  intros H. apply (RangeFacts.all_from_spec _ _ _ era_days_ok).
  unfold days_per_era in H. lia.
Qed.

Lemma is_leap_shift (y k : Z) : is_leap (y + k * 400) = is_leap y.
Proof.
  unfold is_leap.
  replace ((y + k * 400) mod 4) with (y mod 4)
    by (replace (y + k * 400) with (y + (k * 100) * 4) by ring;
        now rewrite Z_mod_plus_full).
  replace ((y + k * 400) mod 100) with (y mod 100)
    by (replace (y + k * 400) with (y + (k * 4) * 100) by ring;
        now rewrite Z_mod_plus_full).
  now rewrite Z_mod_plus_full.
Qed.

Lemma valid_date_shift (y k m d : Z) :
  valid_date (y + k * 400) m d = valid_date y m d.
Proof. unfold valid_date, days_in_month. now rewrite is_leap_shift. Qed.

(** Every day count denotes a valid calendar date, and the date determines
    the day count. *)
Lemma civil_from_days_valid (z : Z) :
  let '(y, m, d) := civil_from_days z in valid_date y m d = true.
Proof.
  unfold civil_from_days.
  assert (Hr : 0 <= (z + epoch_shift) mod days_per_era < days_per_era)
    by (apply Z.mod_pos_bound; reflexivity).
  pose proof (era_day_ok_spec _ Hr) as Hok. unfold era_day_ok in Hok.
  destruct (civil_of_doe ((z + epoch_shift) mod days_per_era)) as [[yoe m] d].
  apply andb_true_iff in Hok as [Hok _].
  apply andb_true_iff in Hok as [_ Hv].
  replace (yoe + (z + epoch_shift) / days_per_era * 400 + (if m <=? 2 then 1 else 0))
    with (yoe + (if m <=? 2 then 1 else 0) + (z + epoch_shift) / days_per_era * 400)
    by ring.
  now rewrite valid_date_shift.
Qed.

Lemma days_from_civil_from_days (z : Z) :
  let '(y, m, d) := civil_from_days z in days_from_civil y m d = z.
Proof.
  unfold civil_from_days.
  assert (Hr : 0 <= (z + epoch_shift) mod days_per_era < days_per_era)
    by (apply Z.mod_pos_bound; reflexivity).
  pose proof (era_day_ok_spec _ Hr) as Hok. unfold era_day_ok in Hok.
  pose proof (Z.div_mod (z + epoch_shift) days_per_era ltac:(discriminate)) as Hdm.
  destruct (civil_of_doe ((z + epoch_shift) mod days_per_era)) as [[yoe m] d].
  apply andb_true_iff in Hok as [Hok _].
  apply andb_true_iff in Hok as [Hok _].
  apply andb_true_iff in Hok as [Hok Hdoe].
  apply andb_true_iff in Hok as [Hlo Hhi].
  apply Z.leb_le in Hlo, Hhi. apply Z.eqb_eq in Hdoe.
  unfold days_from_civil.
  set (era := (z + epoch_shift) / days_per_era) in *.
  replace (yoe + era * 400 + (if m <=? 2 then 1 else 0) - (if m <=? 2 then 1 else 0))
    with (yoe + era * 400) by ring.
  rewrite Z.div_add by discriminate.
  rewrite Z_mod_plus_full.
  rewrite (Z.div_small yoe 400) by lia.
  rewrite (Z.mod_small yoe 400) by lia.
  rewrite Hdoe. lia.
Qed.

Lemma date_ltb_spec (a b : Z * Z * Z) :
  date_ltb a b = true <->
  let '(y1, m1, d1) := a in
  let '(y2, m2, d2) := b in
  y1 < y2 \/ (y1 = y2 /\ (m1 < m2 \/ (m1 = m2 /\ d1 < d2))).
Proof.
  destruct a as [[y1 m1] d1], b as [[y2 m2] d2]. unfold date_ltb.
  rewrite !orb_true_iff, !andb_true_iff, !orb_true_iff, !andb_true_iff,
    !Z.ltb_lt, !Z.eqb_eq. tauto.
Qed.

Lemma date_ltb_trans (a b c : Z * Z * Z) :
  date_ltb a b = true -> date_ltb b c = true -> date_ltb a c = true.
Proof.
  rewrite !date_ltb_spec.
  destruct a as [[y1 m1] d1], b as [[y2 m2] d2], c as [[y3 m3] d3]. lia.
Qed.

Lemma civil_from_days_era (z : Z) :
  civil_from_days z
  = let '(y, m, d) := date_of_doe ((z + epoch_shift) mod days_per_era) in
    (y + (z + epoch_shift) / days_per_era * 400, m, d).
Proof.
  unfold civil_from_days, date_of_doe.
  destruct (civil_of_doe _) as [[yoe m] d]. f_equal. f_equal. ring.
Qed.

(** The day after has a later date. *)
Lemma civil_from_days_next (z : Z) :
  date_ltb (civil_from_days z) (civil_from_days (z + 1)) = true.
Proof.
  rewrite !civil_from_days_era.
  assert (Hr : 0 <= (z + epoch_shift) mod days_per_era < days_per_era)
    by (apply Z.mod_pos_bound; reflexivity).
  pose proof (era_day_ok_spec _ Hr) as Hok. unfold era_day_ok in Hok.
  pose proof (Z.div_mod (z + epoch_shift) days_per_era ltac:(discriminate)) as Hdm.
  set (era := (z + epoch_shift) / days_per_era) in *.
  set (doe := (z + epoch_shift) mod days_per_era) in *.
  destruct (civil_of_doe doe) as [[yoe0 m0] d0].
  apply andb_true_iff in Hok as [_ Hnext]. revert Hnext.
  destruct (Z.eqb_spec doe (days_per_era - 1)) as [Hlast | Hmid]; intros Hnext.
  - assert (E1 : (z + 1 + epoch_shift) / days_per_era = era + 1).
    { symmetry. apply (Z.div_unique _ _ _ 0); unfold days_per_era in *; lia. }
    assert (E2 : (z + 1 + epoch_shift) mod days_per_era = 0).
    { symmetry. apply (Z.mod_unique _ _ (era + 1)); unfold days_per_era in *; lia. }
    rewrite E1, E2, Hlast. vm_compute date_of_doe.
    apply date_ltb_spec. lia.
  - cbn [orb] in Hnext.
    assert (E1 : (z + 1 + epoch_shift) / days_per_era = era).
    { symmetry. apply (Z.div_unique _ _ _ (doe + 1)); unfold days_per_era in *; lia. }
    assert (E2 : (z + 1 + epoch_shift) mod days_per_era = doe + 1).
    { symmetry. apply (Z.mod_unique _ _ era); unfold days_per_era in *; lia. }
    rewrite E1, E2.
    apply date_ltb_spec in Hnext. apply date_ltb_spec.
    destruct (date_of_doe doe) as [[y1 m1] d1], (date_of_doe (doe + 1)) as [[y2 m2] d2].
    lia.
Qed.

Lemma civil_from_days_mono_nat (n : nat) :
  forall z, date_ltb (civil_from_days z) (civil_from_days (z + 1 + Z.of_nat n)) = true.
Proof.
  induction n as [| n IH]; intros z.
  - rewrite Z.add_0_r. apply civil_from_days_next.
  - apply date_ltb_trans with (civil_from_days (z + 1)); [apply civil_from_days_next |].
    replace (z + 1 + Z.of_nat (S n)) with (z + 1 + 1 + Z.of_nat n) by lia. apply IH.
Qed.

(** Later days have later dates. *)
Lemma civil_from_days_mono (z1 z2 : Z) :
  z1 < z2 -> date_ltb (civil_from_days z1) (civil_from_days z2) = true.
Proof.
  intros H. replace z2 with (z1 + 1 + Z.of_nat (Z.to_nat (z2 - z1 - 1))) by lia.
  apply civil_from_days_mono_nat.
Qed.

End CalendarFacts.

Module FloatFacts.

Import Float.

Lemma Qcleb_le (a b : Qc) : Qcleb a b = true <-> (a <= b)%Qc.
Proof. unfold Qcleb, Qcle. apply Qle_bool_iff. Qed.

Lemma real_le_refl (a : real) : real_le a a.
Proof.
  destruct a; unfold real_le; simpl; trivial.
  apply Qcleb_le, Qcle_refl.
Qed.

Lemma real_le_trans (a b c : real) : real_le a b -> real_le b c -> real_le a c.
Proof.
  unfold real_le.
  destruct a, b, c; simpl; trivial; try discriminate.
  rewrite !Qcleb_le. apply Qcle_trans.
Qed.

Lemma real_le_total (a b : real) : real_le a b \/ real_le b a.
Proof.
  unfold real_le.
  destruct a as [x| |], b as [y| |]; simpl; auto.
  rewrite !Qcleb_le.
  destruct (Qclt_le_dec x y) as [H | H]; [left; now apply Qclt_le_weak | now right].
Qed.

Lemma real_leb_false (a b : real) : real_leb a b = false -> real_le b a.
Proof.
  intros H. destruct (real_le_total a b) as [H' | H']; [| exact H'].
  unfold real_le in H'. congruence.
Qed.

Lemma real_max_ub_l (a b : real) : real_le a (real_max a b).
Proof.
  unfold real_max. destruct (real_leb a b) eqn:E; [exact E | apply real_le_refl].
Qed.

Lemma real_max_ub_r (a b : real) : real_le b (real_max a b).
Proof.
  unfold real_max. destruct (real_leb a b) eqn:E;
    [apply real_le_refl | now apply real_leb_false].
Qed.

Lemma real_max_cases (a b : real) : real_max a b = a \/ real_max a b = b.
Proof. unfold real_max. destruct (real_leb a b); auto. Qed.

Lemma dropna_app (xs ys : list float) : dropna (xs ++ ys) = dropna xs ++ dropna ys.
Proof.
  induction xs as [| [r |] xs IH]; simpl; [reflexivity | now rewrite IH | exact IH].
Qed.

Lemma dropna_map_Num (rs : list real) : dropna (map Num rs) = rs.
Proof. induction rs as [| r rs IH]; simpl; [reflexivity | now rewrite IH]. Qed.

End FloatFacts.

(* ===================================================================== *)
(** ** Properties of the merge *)
(* ===================================================================== *)

Module StoreFacts.

Import Float Store Examples.

Lemma has_key_In (k : Z) (t : table) : has_key k t = true <-> In k (keys t).
Proof.
  unfold has_key, keys. rewrite existsb_exists, in_map_iff.
  split; intros [r [H1 H2]]; exists r.
  - apply Z.eqb_eq in H2. tauto.
  - rewrite Z.eqb_eq. tauto.
Qed.

Lemma has_key_app (k : Z) (t u : table) :
  has_key k (t ++ u) = has_key k t || has_key k u.
Proof. unfold has_key. apply existsb_app. Qed.

(** *** The place of a new row *)

Lemma insert_by_key_perm (r : Candle) (t : table) :
  Permutation (insert_by_key r t) (r :: t).
Proof.
  induction t as [| x t IH]; simpl; [reflexivity |].
  destruct (open_time_ms r <? open_time_ms x); [reflexivity |].
  rewrite IH. apply perm_swap.
Qed.


Lemma length_insert_by_key (r : Candle) (t : table) :
  List.length (insert_by_key r t) = S (List.length t).
Proof. apply (Permutation_length (insert_by_key_perm r t)). Qed.

Lemma has_key_insert_by_key (k : Z) (r : Candle) (t : table) :
  has_key k (insert_by_key r t) = (open_time_ms r =? k) || has_key k t.
Proof.
  unfold has_key. induction t as [| x t IH]; simpl; [reflexivity |].
  destruct (open_time_ms r <? open_time_ms x); simpl; [reflexivity |].
  rewrite IH. now destruct (open_time_ms r =? k), (open_time_ms x =? k).
Qed.

Lemma lookup_none_has_key (k : Z) (t : table) :
  lookup k t = None <-> has_key k t = false.
Proof.
  unfold lookup, has_key. induction t as [| r t IH]; simpl; [tauto |].
  destruct (open_time_ms r =? k); simpl; [split; discriminate | exact IH].
Qed.

(** A new row is found under its key, and hides no other row. *)
Lemma lookup_insert_by_key (k : Z) (r : Candle) (t : table) :
  has_key (open_time_ms r) t = false ->
  lookup k (insert_by_key r t)
  = if open_time_ms r =? k then Some r else lookup k t.
Proof.
  unfold lookup, has_key. induction t as [| x t IH]; simpl; intros H.
  - reflexivity.
  - apply orb_false_iff in H as [Hx Ht].
    destruct (open_time_ms r <? open_time_ms x); simpl.
    + reflexivity.
    + rewrite (IH Ht). destruct (Z.eqb_spec (open_time_ms r) k) as [E | _].
      * destruct (Z.eqb_spec (open_time_ms x) k) as [E' | _]; [| reflexivity].
        apply Z.eqb_neq in Hx. congruence.
      * reflexivity.
Qed.


(** *** The merge *)

Lemma insert_present (t : table) (r : Candle) :
  has_key (open_time_ms r) t = true -> insert_or_ignore t r = t.
Proof. intros H. unfold insert_or_ignore. now rewrite H. Qed.

Lemma has_key_insert (k : Z) (t : table) (r : Candle) :
  has_key k (insert_or_ignore t r) = has_key k t || (open_time_ms r =? k).
Proof.
  unfold insert_or_ignore. destruct (has_key (open_time_ms r) t) eqn:E.
  - destruct (Z.eqb_spec (open_time_ms r) k) as [<- | _].
    + now rewrite E.
    + now rewrite orb_false_r.
  - rewrite has_key_insert_by_key. apply orb_comm.
Qed.

Lemma insert_has_key (t : table) (r : Candle) :
  has_key (open_time_ms r) (insert_or_ignore t r) = true.
Proof. rewrite has_key_insert, Z.eqb_refl. apply orb_true_r. Qed.

Lemma lookup_insert (k : Z) (t : table) (r : Candle) :
  lookup k (insert_or_ignore t r)
  = match lookup k t with
    | Some x => Some x
    | None => if open_time_ms r =? k then Some r else None
    end.
Proof.
  unfold insert_or_ignore. destruct (has_key (open_time_ms r) t) eqn:E.
  - destruct (lookup k t) as [x |] eqn:L; [reflexivity |].
    destruct (Z.eqb_spec (open_time_ms r) k) as [Hk | _]; [| reflexivity].
    apply lookup_none_has_key in L. rewrite Hk in E. congruence.
  - rewrite (lookup_insert_by_key k r t E).
    destruct (Z.eqb_spec (open_time_ms r) k) as [Hk | _].
    + rewrite Hk in E. apply lookup_none_has_key in E. now rewrite E.
    + now destruct (lookup k t).
Qed.

Lemma lookup_executemany (rows : list Candle) (t : table) (k : Z) :
  lookup k (executemany t rows)
  = match lookup k t with
    | Some r => Some r
    | None => lookup k rows
    end.
Proof.
  revert t. induction rows as [| r rows IH]; intros t; simpl.
  - now destruct (lookup k t).
  - rewrite IH, lookup_insert.
    destruct (lookup k t) as [x |]; [reflexivity |].
    unfold lookup at 2. simpl. fold (lookup k rows).
    now destruct (open_time_ms r =? k).
Qed.

Lemma executemany_keeps_key (k : Z) (rows : list Candle) (t : table) :
  has_key k t = true -> has_key k (executemany t rows) = true.
Proof.
  revert t. induction rows as [| r rows IH]; intros t H; simpl; [exact H |].
  apply IH. rewrite has_key_insert, H. reflexivity.
Qed.

Lemma executemany_has_key (rows : list Candle) :
  forall t r, In r rows -> has_key (open_time_ms r) (executemany t rows) = true.
Proof.
  induction rows as [| r0 rows IH]; intros t r Hin; simpl in *; [contradiction |].
  destruct Hin as [-> | Hin].
  - apply executemany_keeps_key, insert_has_key.
  - now apply IH.
Qed.

(** Submitting rows whose keys are all present changes nothing. *)
Lemma executemany_all_present (rows : list Candle) :
  forall t, (forall r, In r rows -> has_key (open_time_ms r) t = true) ->
  executemany t rows = t.
Proof.
  induction rows as [| r rows IH]; intros t H; simpl; [reflexivity |].
  rewrite insert_present by (apply H; now left).
  apply IH. intros r' Hr'. apply H. now right.
Qed.


Lemma length_executemany (rows : list Candle) (t : table) :
  (List.length t <= List.length (executemany t rows)
   <= List.length t + List.length rows)%nat.
Proof.
  revert t. induction rows as [| r rows IH]; intros t; simpl; [lia |].
  specialize (IH (insert_or_ignore t r)).
  unfold insert_or_ignore in *. destruct (has_key (open_time_ms r) t); [lia |].
  rewrite length_insert_by_key in IH. lia.
Qed.

Lemma insert_unique (t : table) (r : Candle) :
  unique_keys t -> unique_keys (insert_or_ignore t r).
Proof.
  unfold unique_keys, insert_or_ignore. intros H.
  destruct (has_key (open_time_ms r) t) eqn:E; [exact H |].
  unfold keys.
  apply (Permutation_NoDup (l := open_time_ms r :: map open_time_ms t)).
  - symmetry. apply (Permutation_map open_time_ms (insert_by_key_perm r t)).
  - constructor; [| exact H].
    intros Hin. apply has_key_In in Hin. congruence.
Qed.

Lemma executemany_unique (rows : list Candle) :
  forall t, unique_keys t -> unique_keys (executemany t rows).
Proof.
  induction rows as [| r rows IH]; intros t H; simpl; [exact H |].
  apply IH, insert_unique, H.
Qed.




Lemma count_key_unique (k : Z) (t : table) :
  unique_keys t -> (count_key k t <= 1)%nat.
Proof.
  unfold unique_keys, count_key, keys.
  induction t as [| r t IH]; simpl; intros H; [lia |].
  inversion H as [| x l Hnot Hnd]; subst.
  destruct (Z.eqb_spec (open_time_ms r) k) as [Hk | Hne].
  - simpl. destruct (filter _ t) as [| r' f] eqn:E; [simpl; lia | exfalso].
    assert (Hin : In r' (filter (fun r0 => open_time_ms r0 =? k) t))
      by (rewrite E; now left).
    apply filter_In in Hin as [Hin Heq]. apply Z.eqb_eq in Heq.
    apply Hnot. rewrite Hk, <- Heq. now apply in_map.
  - now apply IH.
Qed.

Lemma lookup_app_present (k : Z) (t u : table) (r : Candle) :
  lookup k t = Some r -> lookup k (t ++ u) = Some r.
Proof.
  unfold lookup. induction t as [| x t IH]; simpl; [discriminate |].
  destruct (open_time_ms x =? k); [trivial | exact IH].
Qed.

(** C1.  The merge is idempotent.  A row whose key is present is skipped
    and the stored row stays as it was; submitting the same rows a second
    time leaves the table, and so its row count, as the first submission
    left it; every row stored before the merge is still the row found
    under its key; and no key has more than one row. *)
Theorem merge_idempotent (t : table) (rows : list Candle) :
  unique_keys t ->
  (forall r, has_key (open_time_ms r) t = true -> insert_or_ignore t r = t)
  /\ executemany (executemany t rows) rows = executemany t rows
  /\ List.length (executemany (executemany t rows) rows)
     = List.length (executemany t rows)
  /\ (forall k r, lookup k t = Some r -> lookup k (executemany t rows) = Some r)
  /\ (forall k, (count_key k (executemany t rows) <= 1)%nat).
Proof.
  intros Hu.
  assert (Hidem : executemany (executemany t rows) rows = executemany t rows).
  { apply executemany_all_present. intros r Hr. now apply executemany_has_key. }
  split; [intros r; apply insert_present |].
  split; [exact Hidem |].
  split; [now rewrite Hidem |].
  split.
  - intros k r Hl. rewrite lookup_executemany, Hl. reflexivity.
  - intros k. apply count_key_unique, executemany_unique, Hu.
Qed.

Lemma merge_idempotent_witness :
  let t := [sample_candle 60000 "1970-01-01 02:01" (Some (Fin 1%Qc))] in
  let rows := [sample_candle 60000 "1970-01-01 02:01" None;
               sample_candle 120000 "1970-01-01 02:02" (Some PInf)] in
  unique_keys t
  /\ executemany (executemany t rows) rows = executemany t rows
  /\ lookup 60000 (executemany t rows)
     = Some (sample_candle 60000 "1970-01-01 02:01" (Some (Fin 1%Qc))).
Proof.
  intros t rows.
  assert (Hu : unique_keys t).
  { unfold unique_keys, t. simpl. constructor; [intros [] | constructor]. }
  destruct (merge_idempotent t rows Hu) as (_ & Hidem & _ & Hl & _).
  split; [exact Hu |]. split; [exact Hidem |].
  apply Hl. reflexivity.
Defined.

End StoreFacts.

(* ===================================================================== *)
(** ** Properties of the fetch window *)
(* ===================================================================== *)

Module SyncFacts.

Import Float Store Sync Examples.

Lemma fold_max_ge (ks : list Z) :
  forall k, k <= fold_left Z.max ks k
            /\ (forall x, In x ks -> x <= fold_left Z.max ks k).
Proof.
  induction ks as [| a ks IH]; intros k; simpl.
  - split; [lia | intros x []].
  - destruct (IH (Z.max k a)) as [H1 H2]. split; [lia |].
    intros x [-> | Hx]; [lia | now apply H2].
Qed.

Lemma fold_max_In (ks : list Z) :
  forall k, In (fold_left Z.max ks k) (k :: ks).
Proof.
  induction ks as [| a ks IH]; intros k; simpl; [now left |].
  destruct (IH (Z.max k a)) as [H | H].
  - rewrite <- H. destruct (Z.max_spec k a) as [[_ ->] | [_ ->]]; auto.
  - right. right. exact H.
Qed.

(** [SELECT MAX] is the greatest stored key. *)
Lemma select_max_spec (t : table) :
  match select_max t with
  | None => t = []
  | Some last => In last (keys t) /\ forall k, In k (keys t) -> k <= last
  end.
Proof.
  unfold select_max. destruct t as [| r t]; simpl; [reflexivity |].
  split.
  - apply (fold_max_In (keys t) (open_time_ms r)).
  - intros k [<- | Hk]; destruct (fold_max_ge (keys t) (open_time_ms r)); auto.
Qed.

Lemma epoch_floor_value : epoch_floor_ms = 1483228800000.
Proof. reflexivity. Qed.

Ltac log_eq := cbn [db log]; rewrite <- ?app_assoc; reflexivity.

(** The four ways a run can go, with what each leaves behind. *)
Lemma sync_data_cases (parse : string -> option float) (ex : exchange) (w : world) :
  let start := start_ms (db w) in
  let stop := end_ms (get_server_time ex) in
  let raw := get_historical_klines ex start stop in
  (stop <= start
   /\ sync_data parse ex w
      = (inr NothingToDo,
         mkWorld (db w) (log w ++ [SelectMax; ServerTime; Print NoNewData])))
  \/ (start < stop /\ raw = []
      /\ sync_data parse ex w
         = (inr NoData,
            mkWorld (db w)
              (log w ++ [SelectMax; ServerTime; FetchKlines start stop;
                         Print NoDataReturned])))
  \/ (start < stop /\ raw <> []
      /\ exists e, normalize_batch parse raw = inl e
         /\ sync_data parse ex w
            = (inl e,
               mkWorld (db w)
                 (log w ++ [SelectMax; ServerTime; FetchKlines start stop])))
  \/ (start < stop /\ raw <> []
      /\ exists records, normalize_batch parse raw = inr records
         /\ sync_data parse ex w
            = (inr (Synced (List.length records)),
               mkWorld (executemany (db w) records)
                 (log w ++ [SelectMax; ServerTime; FetchKlines start stop;
                            InsertMany records; Commit;
                            Print (InsertedRows (List.length records));
                            Print (range_message records)]))).
Proof.
  intros start stop raw.
  unfold sync_data, bind, fetchone_max, emit, ret. cbn [db log fst snd].
  fold (start_ms (db w)). fold start. fold stop. fold raw.
  destruct (Z.geb_spec start stop) as [Hge | Hlt].
  - left. split; [lia | log_eq].
  - right. destruct raw as [| k ks] eqn:Eraw.
    + left. repeat split; [lia | log_eq].
    + right. unfold lift, insert_many.
      destruct (normalize_batch parse (k :: ks)) as [e | records].
      * left. repeat split; [lia | discriminate |].
        exists e. split; [reflexivity | log_eq].
      * right. repeat split; [lia | discriminate |].
        exists records. split; [reflexivity | log_eq].
Qed.

(** Whatever a run appends to the log, a fetch in it is for the window
    from [start_ms] to [end_ms]. *)
Lemma sync_data_fetch_window (parse : string -> option float) (ex : exchange) (w : world) :
  exists evs,
    log (snd (sync_data parse ex w)) = log w ++ evs
    /\ forall a b, In (FetchKlines a b) evs ->
         a = start_ms (db w) /\ b = end_ms (get_server_time ex).
Proof.
  destruct (sync_data_cases parse ex w)
    as [(_ & ->) | [(_ & _ & ->) | [(_ & _ & e & _ & ->) | (_ & _ & rs & _ & ->)]]];
    cbn [snd log]; eexists; (split; [reflexivity |]);
    intros a b Hin; simpl in Hin;
    repeat (destruct Hin as [Hin | Hin]; [try discriminate |]); try contradiction;
    inversion Hin; auto.
Qed.

(** C2.  The start of the fetch window.  On an empty series it is the
    epoch floor 2017-01-01T00:00:00Z, that is 1483228800000 ms; otherwise it
    is the greatest stored [open_time_ms] plus 60000.  A run that fetches
    asks the exchange for the window starting there. *)
Theorem start_ms_spec (t : table) :
  Timestamp.datetime_utc_timestamp 2017 1 1 0 0 0 * 1000 = 1483228800000
  /\ (t = [] -> start_ms t = 1483228800000)
  /\ (t <> [] ->
      exists last, In last (keys t)
                   /\ (forall k, In k (keys t) -> k <= last)
                   /\ start_ms t = last + 60000)
  /\ (forall parse ex evs0,
      exists evs,
        log (snd (sync_data parse ex (mkWorld t evs0))) = evs0 ++ evs
        /\ forall a b, In (FetchKlines a b) evs -> a = start_ms t).
Proof.
  split; [reflexivity |].
  split; [intros ->; reflexivity |].
  split.
  - intros Hne. pose proof (select_max_spec t) as H.
    unfold start_ms. destruct (select_max t) as [last |]; [| contradiction].
    exists last. destruct H as [H1 H2]. repeat split; trivial.
  - intros parse ex evs0.
    destruct (sync_data_fetch_window parse ex (mkWorld t evs0)) as (evs & H1 & H2).
    exists evs. split; [exact H1 |].
    intros a b Hin. now destruct (H2 a b Hin).
Qed.

Lemma start_ms_spec_witness :
  let t := [Examples.sample_candle 1483228800000 "2017-01-01 02:00" None;
            Examples.sample_candle 1483228860000 "2017-01-01 02:01" None] in
  start_ms [] = 1483228800000
  /\ exists last, In last (keys t)
                  /\ (forall k, In k (keys t) -> k <= last)
                  /\ start_ms t = last + 60000.
Proof.
  intros t. split.
  - apply (start_ms_spec []). reflexivity.
  - apply (start_ms_spec t). discriminate.
Defined.

(** C3.  The end of the fetch window is the server time floored to a
    multiple of 60000 ms, and it is the end a fetching run asks for.  When
    the start is not before the end the run returns "nothing to do":
    it raises nothing, leaves the table as it is, and neither fetches
    candles nor writes. *)
Theorem caught_up_is_noop (parse : string -> option float) (ex : exchange) (w : world) :
  let server_ms := get_server_time ex in
  let stop := end_ms server_ms in
  (stop = 60000 * (server_ms / 60000) /\ stop <= server_ms < stop + 60000)
  /\ (exists evs,
        log (snd (sync_data parse ex w)) = log w ++ evs
        /\ forall a b, In (FetchKlines a b) evs -> b = stop)
  /\ (start_ms (db w) >= stop ->
      exists evs,
        sync_data parse ex w = (inr NothingToDo, mkWorld (db w) (log w ++ evs))
        /\ evs = [SelectMax; ServerTime; Print NoNewData]
        /\ existsb is_fetch evs = false
        /\ existsb is_write evs = false).
Proof.
  intros server_ms stop. split; [| split].
  - unfold stop, end_ms, interval_ms.
    pose proof (Z.div_mod server_ms 60000 ltac:(discriminate)).
    pose proof (Z.mod_pos_bound server_ms 60000 ltac:(reflexivity)). lia.
  - destruct (sync_data_fetch_window parse ex w) as (evs & H1 & H2).
    exists evs. split; [exact H1 |].
    intros a b Hin. now destruct (H2 a b Hin).
  - intros Hge.
    destruct (sync_data_cases parse ex w)
      as [(_ & ->) | [(Hlt & _) | [(Hlt & _) | (Hlt & _)]]];
      try (exfalso; fold server_ms stop in Hlt; lia).
    eexists. split; [reflexivity |]. repeat split.
Qed.

Lemma caught_up_is_noop_witness :
  let t := [Examples.sample_candle 1483228800000 "2017-01-01 02:00" None] in
  let ex := quiet_exchange 1483228859999 in
  start_ms t >= end_ms (get_server_time ex)
  /\ exists evs,
       sync_data parse_decimal ex (mkWorld t []) = (inr NothingToDo, mkWorld t evs)
       /\ existsb is_fetch evs = false
       /\ existsb is_write evs = false.
Proof.
  intros t ex.
  assert (H : start_ms t >= end_ms (get_server_time ex)) by (vm_compute; discriminate).
  split; [exact H |].
  destruct (caught_up_is_noop parse_decimal ex (mkWorld t [])) as (_ & _ & Hn).
  destruct (Hn H) as (evs & H1 & _ & H3 & H4).
  exists evs. auto.
Defined.

End SyncFacts.

(* ===================================================================== *)
(** ** Properties of the order of text *)
(* ===================================================================== *)

Module TextFacts.

Lemma ascii_compare_refl (c : ascii) : Ascii.compare c c = Eq.
Proof. unfold Ascii.compare. apply N.compare_refl. Qed.

Lemma string_compare_refl (s : string) : String.compare s s = Eq.
Proof.
  induction s as [| c s IH]; simpl; [reflexivity |].
  now rewrite ascii_compare_refl.
Qed.

Lemma string_leb_refl (s : string) : String.leb s s = true.
Proof. unfold String.leb. now rewrite string_compare_refl. Qed.

(** The bytewise order of text is transitive. *)
Lemma string_leb_trans (a : string) :
  forall b c, String.leb a b = true -> String.leb b c = true -> String.leb a c = true.
Proof.
  unfold String.leb.
  induction a as [| x a IH]; intros [| y b] [| z c]; simpl; intros H1 H2;
    trivial; try discriminate.
  revert H1 H2. unfold Ascii.compare.
  destruct (N.compare_spec (N_of_ascii x) (N_of_ascii y)) as [Exy | Lxy | Gxy];
    destruct (N.compare_spec (N_of_ascii y) (N_of_ascii z)) as [Eyz | Lyz | Gyz];
    destruct (N.compare_spec (N_of_ascii x) (N_of_ascii z)) as [Exz | Lxz | Gxz];
    intros H1 H2; trivial; try discriminate; try lia.
  revert H1 H2. apply IH.
Qed.

Lemma string_ltb_not_leb (a b : string) :
  String.ltb b a = true -> String.leb a b = false.
Proof.
  unfold String.ltb, String.leb. rewrite (String.compare_antisym b a).
  destruct (String.compare a b); simpl; intros H; trivial; discriminate.
Qed.

End TextFacts.

(* ===================================================================== *)
(** ** Properties of the display string *)
(* ===================================================================== *)

Module TimestampFacts.

Import Timestamp.

Ltac zdiv := Z.div_mod_to_equations; lia.

Lemma digit_value_digit (d : Z) :
  0 <= d <= 9 -> digit_value (digit d) = Some d.
Proof.
  intros H.
  assert (C : d = 0 \/ d = 1 \/ d = 2 \/ d = 3 \/ d = 4 \/ d = 5 \/ d = 6
              \/ d = 7 \/ d = 8 \/ d = 9) by lia.
  repeat (destruct C as [-> | C]; [reflexivity |]). now subst d.
Qed.

Lemma read_digit_step (k : nat) (acc d : Z) (rest : string) :
  0 <= d <= 9 ->
  read_digits (S k) acc (String (digit d) rest) = read_digits k (10 * acc + d) rest.
Proof. intros H. cbn [read_digits]. now rewrite digit_value_digit. Qed.

Lemma read_pad2 (n : Z) (rest : string) :
  0 <= n < 100 -> read_digits 2 0 (pad2 n ++ rest) = Some (n, rest).
Proof.
  intros H. unfold pad2. cbn [append].
  rewrite !read_digit_step by zdiv. cbn [read_digits].
  f_equal. f_equal. zdiv.
Qed.

Lemma read_pad4 (n : Z) (rest : string) :
  0 <= n < 10000 -> read_digits 4 0 (pad4 n ++ rest) = Some (n, rest).
Proof.
  intros H. unfold pad4, pad2. cbn [append].
  rewrite !read_digit_step by zdiv. cbn [read_digits].
  f_equal. f_equal. zdiv.
Qed.

Lemma expect_ok (c : ascii) (rest : string) : expect c (String c rest) = Some rest.
Proof. cbn [expect]. now rewrite Ascii.eqb_refl. Qed.

(** The year of a day within 146097 days of the epoch's era has four digits. *)
Lemma civil_year_bound (z : Z) :
  - 719468 <= z < 2786860 ->
  let '(y, m, d) := Calendar.civil_from_days z in 0 <= y < 10000.
Proof.
  intros H. unfold Calendar.civil_from_days.
  assert (Hr : 0 <= (z + Calendar.epoch_shift) mod Calendar.days_per_era
               < Calendar.days_per_era) by (apply Z.mod_pos_bound; reflexivity).
  pose proof (CalendarFacts.era_day_ok_spec _ Hr) as Hok. unfold Calendar.era_day_ok in Hok.
  destruct (Calendar.civil_of_doe _) as [[yoe m] d].
  apply andb_true_iff in Hok as [Hok _].
  apply andb_true_iff in Hok as [Hok _].
  apply andb_true_iff in Hok as [Hok _].
  apply andb_true_iff in Hok as [Hlo Hhi].
  apply Z.leb_le in Hlo, Hhi.
  unfold Calendar.epoch_shift, Calendar.days_per_era in *.
  assert (0 <= (z + 719468) / 146097 < 24) by zdiv.
  destruct (m <=? 2); lia.
Qed.

Lemma valid_date_bounds (y m d : Z) :
  Calendar.valid_date y m d = true -> 1 <= m <= 12 /\ 1 <= d <= 31.
Proof.
  unfold Calendar.valid_date, Calendar.days_in_month. intros H.
  apply andb_true_iff in H as [H Hd2]. apply andb_true_iff in H as [H Hd1].
  apply andb_true_iff in H as [Hm1 Hm2].
  apply Z.leb_le in Hm1, Hm2, Hd1, Hd2.
  destruct (m =? 2); [destruct (Calendar.is_leap y); lia |].
  destruct ((m =? 4) || (m =? 6) || (m =? 9) || (m =? 11)); lia.
Qed.

(** Reading back the text of a minute gives the minute. *)
Lemma read_display_strftime (ns : Z) :
  - 719468 * 1440 <= ns / ns_per_minute < 2786860 * 1440 ->
  String.length (strftime ns) = 16%nat
  /\ read_display (strftime ns) = Some (ns / ns_per_minute * 60000).
Proof.
  intros H. unfold strftime.
  set (minutes := ns / ns_per_minute) in *.
  assert (Hd : - 719468 <= minutes / 1440 < 2786860) by zdiv.
  pose proof (civil_year_bound _ Hd) as Hy.
  pose proof (CalendarFacts.civil_from_days_valid (minutes / 1440)) as Hv.
  pose proof (CalendarFacts.days_from_civil_from_days (minutes / 1440)) as Hrt.
  destruct (Calendar.civil_from_days (minutes / 1440)) as [[y m] d].
  destruct (valid_date_bounds _ _ _ Hv) as [Hm Hdd].
  assert (Hhh : 0 <= minutes mod 1440 / 60 < 24) by zdiv.
  assert (Hmm : 0 <= minutes mod 60 < 60) by zdiv.
  split; [reflexivity |].
  unfold read_display, format_fields.
  rewrite read_pad4 by exact Hy. cbn [append]. rewrite expect_ok.
  rewrite read_pad2 by lia. cbn [append]. rewrite expect_ok.
  rewrite read_pad2 by lia. cbn [append]. rewrite expect_ok.
  rewrite read_pad2 by lia. cbn [append]. rewrite expect_ok.
  replace (pad2 (minutes mod 60)) with (pad2 (minutes mod 60) ++ "")%string
    by (unfold pad2; reflexivity).
  rewrite read_pad2 by lia.
  rewrite Hv, Hrt.
  rewrite (proj2 (Z.ltb_lt _ _)) by lia.
  rewrite (proj2 (Z.ltb_lt _ _)) by lia.
  cbn [andb]. f_equal.
  clear. zdiv.
Qed.

Lemma N_of_digit (d : Z) : 0 <= d <= 9 -> N_of_ascii (digit d) = (48 + Z.to_N d)%N.
Proof. intros H. unfold digit. apply N_ascii_embedding. lia. Qed.

Lemma ascii_compare_digit (x y : Z) :
  0 <= x <= 9 -> 0 <= y <= 9 -> Ascii.compare (digit x) (digit y) = (x ?= y).
Proof.
  intros Hx Hy. unfold Ascii.compare. rewrite !N_of_digit by assumption.
  destruct (Z.compare_spec x y) as [E | L | G].
  - subst. apply N.compare_refl.
  - apply N.compare_lt_iff. lia.
  - apply N.compare_gt_iff. lia.
Qed.

(** Comparing two-digit fields as text is comparing them as numbers. *)
Lemma compare_pad2 (a b : Z) (r1 r2 : string) :
  0 <= a < 100 -> 0 <= b < 100 ->
  String.compare (pad2 a ++ r1) (pad2 b ++ r2)
  = match a ?= b with Eq => String.compare r1 r2 | c => c end.
Proof.
  intros Ha Hb. unfold pad2. cbn [append String.compare].
  rewrite !ascii_compare_digit by zdiv.
  destruct (Z.compare_spec (a / 10) (b / 10)) as [E1 | L1 | G1];
    destruct (Z.compare_spec (a mod 10) (b mod 10)) as [E2 | L2 | G2];
    destruct (Z.compare_spec a b) as [E | L | G];
    trivial; exfalso; zdiv.
Qed.

Lemma compare_pad4 (a b : Z) (r1 r2 : string) :
  0 <= a < 10000 -> 0 <= b < 10000 ->
  String.compare (pad4 a ++ r1) (pad4 b ++ r2)
  = match a ?= b with Eq => String.compare r1 r2 | c => c end.
Proof.
  intros Ha Hb. unfold pad4. cbn [append String.compare].
  rewrite !ascii_compare_digit by zdiv.
  rewrite (compare_pad2 (a mod 100) (b mod 100)) by zdiv.
  destruct (Z.compare_spec (a / 1000) (b / 1000)) as [E1 | L1 | G1];
    destruct (Z.compare_spec (a / 100 mod 10) (b / 100 mod 10)) as [E2 | L2 | G2];
    destruct (Z.compare_spec (a mod 100) (b mod 100)) as [E3 | L3 | G3];
    destruct (Z.compare_spec a b) as [E | L | G];
    trivial; exfalso; zdiv.
Qed.

Lemma compare_same_head (c : ascii) (r1 r2 : string) :
  String.compare (String c r1) (String c r2) = String.compare r1 r2.
Proof. cbn [String.compare]. now rewrite TextFacts.ascii_compare_refl. Qed.

(** The order of the text is the order of the fields, read left to right. *)
Lemma compare_format_fields (y1 m1 d1 h1 n1 y2 m2 d2 h2 n2 : Z) :
  0 <= y1 < 10000 -> 0 <= y2 < 10000 ->
  0 <= m1 < 100 -> 0 <= m2 < 100 -> 0 <= d1 < 100 -> 0 <= d2 < 100 ->
  0 <= h1 < 100 -> 0 <= h2 < 100 -> 0 <= n1 < 100 -> 0 <= n2 < 100 ->
  String.compare (format_fields y1 m1 d1 h1 n1) (format_fields y2 m2 d2 h2 n2)
  = match y1 ?= y2 with
    | Eq => match m1 ?= m2 with
            | Eq => match d1 ?= d2 with
                    | Eq => match h1 ?= h2 with
                            | Eq => n1 ?= n2
                            | c => c
                            end
                    | c => c
                    end
            | c => c
            end
    | c => c
    end.
Proof.
  intros. unfold format_fields.
  rewrite compare_pad4 by assumption. destruct (y1 ?= y2); trivial.
  cbn [append]. rewrite compare_same_head.
  rewrite compare_pad2 by assumption. destruct (m1 ?= m2); trivial.
  cbn [append]. rewrite compare_same_head.
  rewrite compare_pad2 by assumption. destruct (d1 ?= d2); trivial.
  cbn [append]. rewrite compare_same_head.
  rewrite compare_pad2 by assumption. destruct (h1 ?= h2); trivial.
  cbn [append]. rewrite compare_same_head.
  replace (pad2 n1) with (pad2 n1 ++ "")%string by reflexivity.
  replace (pad2 n2) with (pad2 n2 ++ "")%string by reflexivity.
  rewrite compare_pad2 by assumption. destruct (n1 ?= n2); reflexivity.
Qed.

(** Later minutes have later texts. *)
Lemma strftime_mono (ns1 ns2 : Z) :
  - 719468 * 1440 <= ns1 / ns_per_minute < 2786860 * 1440 ->
  - 719468 * 1440 <= ns2 / ns_per_minute < 2786860 * 1440 ->
  ns1 / ns_per_minute <= ns2 / ns_per_minute ->
  String.leb (strftime ns1) (strftime ns2) = true.
Proof.
  intros B1 B2 Hle. unfold strftime.
  set (t1 := ns1 / ns_per_minute) in *. set (t2 := ns2 / ns_per_minute) in *.
  assert (D1 : - 719468 <= t1 / 1440 < 2786860) by zdiv.
  assert (D2 : - 719468 <= t2 / 1440 < 2786860) by zdiv.
  pose proof (civil_year_bound _ D1) as Y1.
  pose proof (civil_year_bound _ D2) as Y2.
  pose proof (CalendarFacts.civil_from_days_valid (t1 / 1440)) as V1.
  pose proof (CalendarFacts.civil_from_days_valid (t2 / 1440)) as V2.
  assert (Hh1 : 0 <= t1 mod 1440 / 60 < 100) by zdiv.
  assert (Hh2 : 0 <= t2 mod 1440 / 60 < 100) by zdiv.
  assert (Hn1 : 0 <= t1 mod 60 < 100) by zdiv.
  assert (Hn2 : 0 <= t2 mod 60 < 100) by zdiv.
  destruct (Z.compare_spec (t1 / 1440) (t2 / 1440)) as [E | L | G].
  - rewrite <- E in *. clear V2 Y2.
    destruct (Calendar.civil_from_days (t1 / 1440)) as [[y m] d].
    destruct (valid_date_bounds _ _ _ V1) as [Hm Hd].
    unfold String.leb. rewrite compare_format_fields by lia.
    rewrite !Z.compare_refl.
    destruct (Z.compare_spec (t1 mod 1440 / 60) (t2 mod 1440 / 60)) as [Eh | Lh | Gh];
      trivial.
    + destruct (Z.compare_spec (t1 mod 60) (t2 mod 60)) as [En | Ln | Gn]; trivial.
      exfalso. clear - E Eh Gn Hle. zdiv.
    + exfalso. clear - E Gh Hle. zdiv.
  - pose proof (CalendarFacts.civil_from_days_mono _ _ L) as Hlt.
    apply CalendarFacts.date_ltb_spec in Hlt.
    destruct (Calendar.civil_from_days (t1 / 1440)) as [[y1 m1] d1].
    destruct (Calendar.civil_from_days (t2 / 1440)) as [[y2 m2] d2].
    destruct (valid_date_bounds _ _ _ V1) as [Hm1 Hd1].
    destruct (valid_date_bounds _ _ _ V2) as [Hm2 Hd2].
    unfold String.leb. rewrite compare_format_fields by lia.
    destruct (Z.compare_spec y1 y2) as [Ey | Ly | Gy]; trivial; [| exfalso; lia].
    destruct (Z.compare_spec m1 m2) as [Em | Lm | Gm]; trivial; [| exfalso; lia].
    destruct (Z.compare_spec d1 d2) as [Ed | Ld | Gd]; trivial; exfalso; lia.
  - exfalso. clear - G Hle. zdiv.
Qed.

End TimestampFacts.

(* ===================================================================== *)
(** ** Properties of the normalisation *)
(* ===================================================================== *)

Module NormalizeFacts.

Import Float Store Sync Examples.

Lemma in_bounds_true (ns : Z) :
  Timestamp.ns_min <= ns <= Timestamp.ns_max -> Timestamp.in_bounds ns = true.
Proof.
  intros [H1 H2]. unfold Timestamp.in_bounds.
  apply andb_true_iff. split; now apply Z.leb_le.
Qed.

Lemma astype_in_range (ms : Z) : ms_lo <= ms <= ms_hi -> astype_int64 ms = inr ms.
Proof.
  unfold ms_lo, ms_hi, astype_int64, int64_min, int64_max. intros H.
  now rewrite (proj2 (Z.leb_le _ _)), (proj2 (Z.leb_le _ _)) by lia.
Qed.

Lemma display_time_in_range (ms : Z) :
  ms_lo <= ms <= ms_hi -> display_time ms = inr (display_text ms).
Proof.
  unfold ms_lo, ms_hi. intros H.
  unfold display_time, display_text, Timestamp.to_datetime_ms, Timestamp.add_hours,
    Timestamp.floor_min, Timestamp.ns_per_ms, Timestamp.ns_per_hour,
    Timestamp.ns_per_minute.
  cbv zeta.
  pose proof (Z.mod_pos_bound (ms * 1000000 + 2 * 3600000000000) 60000000000
                ltac:(reflexivity)) as Hm.
  rewrite (in_bounds_true (ms * 1000000))
    by (unfold Timestamp.ns_min, Timestamp.ns_max; lia).
  rewrite (in_bounds_true (ms * 1000000 + 2 * 3600000000000))
    by (unfold Timestamp.ns_min, Timestamp.ns_max; lia).
  rewrite in_bounds_true
    by (unfold Timestamp.ns_min, Timestamp.ns_max; lia).
  reflexivity.
Qed.

(** The display string has sixteen characters and names the minute that
    holds the instant two hours after the open time. *)
Lemma display_text_reads (ms : Z) :
  ms_lo <= ms <= ms_hi ->
  String.length (display_text ms) = 16%nat
  /\ Timestamp.read_display (display_text ms)
     = Some (60000 * ((ms + 2 * 3600000) / 60000)).
Proof.
  unfold ms_lo, ms_hi. intros H.
  unfold display_text, Timestamp.ns_per_ms, Timestamp.ns_per_hour,
    Timestamp.ns_per_minute.
  set (shifted := ms * 1000000 + 2 * 3600000000000).
  set (local := shifted - shifted mod 60000000000).
  assert (Hq : local / 60000000000 = (ms + 2 * 3600000) / 60000).
  { unfold local, shifted. clear. Z.div_mod_to_equations. lia. }
  destruct (TimestampFacts.read_display_strftime local) as [Hlen Hread].
  - unfold Timestamp.ns_per_minute. rewrite Hq. clear - H. Z.div_mod_to_equations. lia.
  - split; [exact Hlen |]. rewrite Hread.
    unfold Timestamp.ns_per_minute. rewrite Hq. f_equal. ring.
Qed.

(** Later open times have later display strings. *)
Lemma display_text_mono (ms1 ms2 : Z) :
  ms_lo <= ms1 <= ms_hi -> ms_lo <= ms2 <= ms_hi -> ms1 <= ms2 ->
  String.leb (display_text ms1) (display_text ms2) = true.
Proof.
  unfold ms_lo, ms_hi. intros H1 H2 Hle. unfold display_text.
  unfold Timestamp.ns_per_ms, Timestamp.ns_per_hour. cbv zeta.
  apply TimestampFacts.strftime_mono; unfold Timestamp.ns_per_minute;
    clear - H1 H2 Hle; Z.div_mod_to_equations; lia.
Qed.


Lemma map_result_map {A B} (f : A -> error + B) (g : A -> B) (l : list A) :
  (forall x, In x l -> f x = inr (g x)) -> map_result f l = inr (map g l).
Proof.
  induction l as [| a l IH]; intros H; simpl; [reflexivity |].
  rewrite (H a (or_introl eq_refl)), IH; [reflexivity |].
  intros x Hx. apply H. now right.
Qed.

Lemma zip_columns {A B C D} (f : A -> B) (g : B -> C) (h : A * (B * C) -> D)
    (l : list A) :
  map h (combine l (combine (map f l) (map g (map f l))))
  = map (fun a => h (a, (f a, g (f a)))) l.
Proof. induction l as [| a l IH]; simpl; [reflexivity | now rewrite IH]. Qed.

(** When every open time of the batch is in range, nothing raises and
    each row becomes its record. *)
Lemma normalize_batch_in_range (parse : string -> option float) (raw : list kline) :
  (forall k, In k raw -> ms_lo <= k_open_time k <= ms_hi) ->
  normalize_batch parse raw = inr (map (normalized parse) raw).
Proof.
  intros H. unfold normalize_batch.
  rewrite (map_result_map astype_int64 (fun z => z)).
  - rewrite map_id.
    rewrite (map_result_map display_time display_text).
    + now rewrite zip_columns.
    + intros ms Hms. apply in_map_iff in Hms as (k & <- & Hk).
      now apply display_time_in_range, H.
  - intros ms Hms. apply in_map_iff in Hms as (k & <- & Hk).
    now apply astype_in_range, H.
Qed.

Lemma keys_normalized (parse : string -> option float) (raw : list kline) :
  keys (map (normalized parse) raw) = map k_open_time raw.
Proof. unfold keys. rewrite map_map. reflexivity. Qed.

(** C4.  Normalisation keeps the raw open time of every fetched row as its
    [open_time_ms], and the display string is the text [YYYY-MM-DD HH:MM]
    (sixteen characters) of the instant two hours after the open time,
    truncated to the minute: read back as a civil time it is
    [open_time_ms + 2 h] floored to a multiple of 60000 ms.  This holds for
    every batch whose open times, shifted by two hours, are representable
    timestamps. *)
Theorem normalize_open_time (parse : string -> option float) (raw : list kline) :
  (forall k, In k raw -> ms_lo <= k_open_time k <= ms_hi) ->
  exists records,
    normalize_batch parse raw = inr records
    /\ Forall2
         (fun k c =>
            open_time_ms c = k_open_time k
            /\ String.length (open_time c) = 16%nat
            /\ Timestamp.read_display (open_time c)
               = Some (60000 * ((k_open_time k + 2 * 3600000) / 60000)))
         raw records.
Proof.
  intros H. exists (map (normalized parse) raw).
  split; [now apply normalize_batch_in_range |].
  induction raw as [| k raw IH]; simpl; constructor.
  - split; [reflexivity |]. apply display_text_reads, H. now left.
  - apply IH. intros x Hx. apply H. now right.
Qed.

Lemma normalize_open_time_witness :
  exists c,
    normalize_batch parse_decimal [sample_kline 1700000000123 "231.4"] = inr [c]
    /\ open_time_ms c = 1700000000123
    /\ open_time c = "2023-11-15 00:13"%string
    /\ Timestamp.read_display (open_time c) = Some 1700007180000.
Proof.
  destruct (normalize_open_time parse_decimal [sample_kline 1700000000123 "231.4"])
    as (records & Hn & Hall).
  - intros k [<- | []]. unfold ms_lo, ms_hi. simpl. lia.
  - inversion Hall as [| k c raw' records' (Hms & _ & Hread) Hrest Ek Er]; subst.
    inversion Hrest; subst.
    exists c. split; [exact Hn |]. split; [exact Hms |]. split; [| exact Hread].
    vm_compute in Hn. now inversion Hn.
Defined.








End NormalizeFacts.

(* ===================================================================== *)
(** ** Properties of the rolling maximum and of the ratio *)
(* ===================================================================== *)

Module RollingFacts.

Import Float FloatFacts Store PrepTarget.

Lemma nth_error_slice {A} (l : list A) (start stop k : nat) :
  (k < stop - start)%nat -> nth_error (slice l start stop) k = nth_error l (start + k).
Proof.
  intros H. unfold slice. rewrite nth_error_firstn.
  rewrite (proj2 (Nat.ltb_lt _ _) H). apply nth_error_skipn.
Qed.

(** The cells of a slice are the cells at the positions it spans. *)
Lemma In_slice {A} (l : list A) (start stop : nat) (x : A) :
  In x (slice l start stop)
  <-> exists j, (start <= j < stop)%nat /\ nth_error l j = Some x.
Proof.
  split.
  - intros H. apply In_nth_error in H as [k Hk].
    assert (Hlt : (k < stop - start)%nat).
    { unfold slice in Hk. rewrite nth_error_firstn in Hk.
      destruct (Nat.ltb_spec k (stop - start)); [assumption | discriminate]. }
    rewrite nth_error_slice in Hk by exact Hlt.
    exists (start + k)%nat. split; [lia | exact Hk].
  - intros (j & Hj & Hx). apply nth_error_In with (n := (j - start)%nat).
    rewrite nth_error_slice by lia. now replace (start + (j - start))%nat with j by lia.
Qed.

Lemma In_dropna (r : real) (l : list float) : In r (dropna l) <-> In (Num r) l.
Proof.
  induction l as [| [r' |] l IH]; simpl; [tauto | |].
  - rewrite IH. split; intros [H | H]; auto; left; congruence.
  - rewrite IH. split; [auto | intros [H | H]; [discriminate | exact H]].
Qed.

Lemma fold_max_step_some (win : list float) :
  forall a, exists m,
    fold_left max_step win (Some a) = Some m /\ greatest m (a :: dropna win).
Proof.
  induction win as [| [r |] win IH]; intros a; simpl.
  - exists a. split; [reflexivity |]. split; [now left |].
    intros c [<- | []]. apply real_le_refl.
  - destruct (IH (real_max a r)) as (m & Hm & Hin & Hub).
    exists m. split; [exact Hm |]. split.
    + destruct Hin as [Hin | Hin]; [| right; right; exact Hin].
      destruct (real_max_cases a r) as [E | E]; rewrite E in Hin; subst m;
        simpl; auto.
    + intros c [Ec | [Ec | Hc]].
      * subst c. apply real_le_trans with (real_max a r);
          [apply real_max_ub_l | apply Hub; now left].
      * subst c. apply real_le_trans with (real_max a r);
          [apply real_max_ub_r | apply Hub; now left].
      * apply Hub. now right.
  - apply IH.
Qed.

Lemma fold_max_step_none (win : list float) :
  match fold_left max_step win None with
  | Some m => greatest m (dropna win)
  | None => dropna win = []
  end.
Proof.
  induction win as [| [r |] win IH]; simpl; [reflexivity | | exact IH].
  destruct (fold_max_step_some win r) as (m & -> & H). exact H.
Qed.

(** With [min_periods = 1] a window with an observation yields the
    greatest of its observations, and a window without one yields NaN. *)
Lemma window_max_spec (win : list float) :
  match dropna win with
  | [] => window_max min_periods win = NaN
  | _ :: _ => exists m, window_max min_periods win = Num m /\ greatest m (dropna win)
  end.
Proof.
  pose proof (fold_max_step_none win) as H. unfold window_max, count_obs, min_periods.
  destruct (fold_left max_step win None) as [m |].
  - destruct (dropna win) as [| c cs] eqn:E; [destruct H as [[] _] |].
    exists m. simpl. split; [reflexivity | exact H].
  - now rewrite H.
Qed.

Lemma length_prep_values (xs : list float) :
  List.length (prep_values xs) = List.length xs.
Proof. apply length_map. Qed.

Lemma length_rolling_max (window mp : nat) (xs : list float) :
  List.length (rolling_max window mp xs) = List.length xs.
Proof.
  unfold rolling_max. cbv zeta.
  now rewrite length_map, length_seq, length_prep_values.
Qed.

Lemma nth_error_rolling_max (window mp : nat) (xs : list float) (i : nat) :
  (i < List.length xs)%nat ->
  nth_error (rolling_max window mp xs) i
  = Some (window_max mp (slice (prep_values xs) (i + 1 - window) (i + 1))).
Proof.
  intros H. unfold rolling_max. cbv zeta.
  rewrite nth_error_map, nth_error_seq, length_prep_values.
  now rewrite (proj2 (Nat.ltb_lt _ _) H).
Qed.

(** The observations of a window are the finite closes of its rows. *)
Lemma window_observations (close : list float) (lo hi : nat) (r : real) :
  In r (dropna (slice (prep_values close) lo hi))
  <-> exists q j, r = Fin q /\ (lo <= j < hi)%nat
                  /\ nth_error close j = Some (Num (Fin q)).
Proof.
  rewrite In_dropna, In_slice. unfold prep_values. split.
  - intros (j & Hj & Hx). rewrite nth_error_map in Hx.
    destruct (nth_error close j) as [[[q | |] |] |] eqn:E; simpl in Hx;
      try discriminate.
    injection Hx as <-. now exists q, j.
  - intros (q & j & -> & Hj & Hx). exists j. split; [exact Hj |].
    now rewrite nth_error_map, Hx.
Qed.

(** Row [i] of the rolling maximum: NaN when no close of the window is a
    finite number, and otherwise the greatest finite close of the window. *)
Lemma rolling_max_at (close : list float) (window i : nat) :
  let lo := (i + 1 - window)%nat in
  (i < List.length close)%nat ->
  exists v,
    nth_error (rolling_max_column window close) i = Some v
    /\ (v = NaN <->
        forall j q, (lo <= j <= i)%nat -> nth_error close j <> Some (Num (Fin q)))
    /\ (forall r, v = Num r ->
        exists m, r = Fin m
          /\ (exists j, (lo <= j <= i)%nat /\ nth_error close j = Some (Num (Fin m)))
          /\ forall j c, (lo <= j <= i)%nat ->
                nth_error close j = Some (Num (Fin c)) -> (c <= m)%Qc).
Proof.
  intros lo Hi. unfold rolling_max_column.
  rewrite nth_error_rolling_max by exact Hi. fold lo.
  set (win := slice (prep_values close) lo (i + 1)).
  assert (Hobs : forall r, In r (dropna win)
                 <-> exists q j, r = Fin q /\ (lo <= j <= i)%nat
                                 /\ nth_error close j = Some (Num (Fin q))).
  { intros r. unfold win. rewrite window_observations.
    split; intros (q & j & E & Hj & Hx); exists q, j;
      (split; [exact E | split; [lia | exact Hx]]). }
  pose proof (window_max_spec win) as Hmax.
  remember (dropna win) as obs eqn:Ed in Hmax.
  destruct obs as [| c0 cs].
  - exists NaN. split; [now rewrite Hmax |]. split; [| discriminate].
    split; [| reflexivity]. intros _ j q Hj Hx.
    assert (Hin : In (Fin q) (dropna win)) by (apply Hobs; now exists q, j).
    rewrite <- Ed in Hin. contradiction.
  - destruct Hmax as (m & -> & Hin & Hub). rewrite Ed in Hin, Hub.
    exists (Num m). split; [reflexivity |]. split.
    + split; [discriminate |]. intros Hnone. exfalso.
      apply Hobs in Hin as (q & j & _ & Hj & Hx). exact (Hnone j q Hj Hx).
    + intros r Hr. injection Hr as <-.
      pose proof Hin as Hin'. apply Hobs in Hin' as (q & j & -> & Hj & Hx).
      exists q. split; [reflexivity |]. split; [now exists j |].
      intros j' c Hj' Hc. apply Qcleb_le. apply (Hub (Fin c)).
      apply Hobs. now exists c, j'.
Qed.

Lemma nth_error_ratio_column (rolling close : list float) (i : nat) (a b : float) :
  nth_error rolling i = Some a -> nth_error close i = Some b ->
  nth_error (ratio_column rolling close) i = Some (fdiv a b).
Proof.
  unfold ratio_column. revert close i.
  induction rolling as [| x rolling IH]; intros [| y close] [| i] Ha Hb;
    simpl in *; try discriminate.
  - now inversion Ha; inversion Hb.
  - now apply IH.
Qed.

(** The [close] column is one of objects when no cell of it is read as a
    number. *)
Lemma object_column_reads (t : table) (a b : string) :
  object_column (map snd (select_range t a b)) = false
  <-> exists r, In (Num r) (map snd (read_sql_query t a b)).
Proof.
  unfold read_sql_query. rewrite map_map.
  induction (select_range t a b) as [| [shown [r |]] rows IH]; simpl.
  - split; [discriminate | intros [r []]].
  - split; [intros _; exists r; now left | reflexivity].
  - rewrite IH. split; intros [r H]; exists r; [now right |].
    destruct H as [H | H]; [discriminate | exact H].
Qed.

(** On a range with a number among its closes and with a window of at
    least one row, the result is the percentiles of the ratio column of the
    closes read. *)
Lemma calculate_on_rows (t : table) (a b : string) (window : Z) :
  (exists r, In (Num r) (map snd (read_sql_query t a b))) -> 1 <= window ->
  calculate_target_percentiles t a b window
  = inr (describe_percentiles
           (ratio_of_close (Z.to_nat window) (map snd (read_sql_query t a b)))).
Proof.
  intros Hnum Hw. unfold calculate_target_percentiles.
  rewrite (proj2 (object_column_reads t a b) Hnum).
  destruct (read_sql_query t a b) as [| row rows];
    [destruct Hnum as [r []] |].
  now rewrite (proj2 (Z.ltb_ge _ _) Hw).
Qed.








End RollingFacts.

(* ===================================================================== *)
(** ** Properties of the sorted sample *)
(* ===================================================================== *)

Module SortFacts.

Import Float FloatFacts PrepTarget.

Lemma In_insert_sorted (x y : real) (l : list real) :
  In x (insert_sorted y l) <-> x = y \/ In x l.
Proof.
  induction l as [| z l IH]; simpl; [intuition |].
  destruct (real_leb y z); simpl; [intuition |].
  rewrite IH. intuition.
Qed.

(** Sorting keeps the cells. *)
Lemma In_sort (x : real) (l : list real) : In x (sort l) <-> In x l.
Proof.
  unfold sort. induction l as [| y l IH]; simpl; [tauto |].
  rewrite In_insert_sorted, IH. intuition.
Qed.

Lemma insert_sorted_sorted (x : real) (l : list real) :
  StronglySorted real_le l -> StronglySorted real_le (insert_sorted x l).
Proof.
  induction 1 as [| y l Hs IH Hall]; simpl; [repeat constructor |].
  destruct (real_leb x y) eqn:E.
  - constructor; [now constructor |]. constructor; [exact E |].
    eapply Forall_impl; [| exact Hall]. intros z Hz. now apply real_le_trans with y.
  - constructor; [exact IH |].
    rewrite Forall_forall in *. intros z Hz.
    apply In_insert_sorted in Hz as [-> | Hz];
      [now apply real_leb_false | now apply Hall].
Qed.

(** The sample the quantiles are read from is in ascending order. *)
Lemma sort_sorted (l : list real) : StronglySorted real_le (sort l).
Proof.
  unfold sort. induction l as [| x l IH]; simpl; [constructor |].
  now apply insert_sorted_sorted.
Qed.

Lemma insert_sorted_perm (x : real) (l : list real) :
  Permutation (insert_sorted x l) (x :: l).
Proof.
  induction l as [| y l IH]; simpl; [reflexivity |].
  destruct (real_leb x y); [reflexivity |].
  rewrite IH. apply perm_swap.
Qed.

Lemma sort_perm (l : list real) : Permutation (sort l) l.
Proof.
  unfold sort. induction l as [| x l IH]; simpl; [reflexivity |].
  rewrite insert_sorted_perm. now constructor.
Qed.

Lemma real_le_antisym (x y : real) : real_le x y -> real_le y x -> x = y.
Proof.
  unfold real_le. destruct x as [p | |], y as [q | |]; simpl; trivial; try discriminate.
  rewrite !Qcleb_le. intros H1 H2. f_equal. now apply Qcle_antisym.
Qed.

(** Two sorted lists with the same cells are the same list. *)
Lemma sorted_perm_eq (l1 : list real) :
  forall l2, StronglySorted real_le l1 -> StronglySorted real_le l2 ->
             Permutation l1 l2 -> l1 = l2.
Proof.
  induction l1 as [| x l1 IH]; intros l2 S1 S2 P.
  - apply Permutation_nil in P. now subst.
  - destruct l2 as [| y l2]; [symmetry in P; now apply Permutation_nil in P |].
    apply StronglySorted_inv in S1 as [S1 A1]. apply StronglySorted_inv in S2 as [S2 A2].
    rewrite Forall_forall in A1, A2.
    assert (Hxy : real_le x y).
    { assert (Hin : In y (x :: l1)) by (eapply Permutation_in; [symmetry; exact P | now left]).
      destruct Hin as [<- | Hin]; [apply real_le_refl | now apply A1]. }
    assert (Hyx : real_le y x).
    { assert (Hin : In x (y :: l2)) by (eapply Permutation_in; [exact P | now left]).
      destruct Hin as [<- | Hin]; [apply real_le_refl | now apply A2]. }
    assert (E : x = y) by now apply real_le_antisym.
    subst y. f_equal. apply IH; trivial. now apply Permutation_cons_inv in P.
Qed.


End SortFacts.

(* ===================================================================== *)
(** ** The worked example of the percentiles *)
(* ===================================================================== *)

Module ExampleFacts.

Import Float FloatFacts Store PrepTarget Examples SortFacts.

(** A cell is determined by the rational it holds. *)
Lemma float_of_Q (x : float) (q : Q) : to_Q x = Some (Qred q) -> x = of_Q q.
Proof.
  destruct x as [[c | |] |]; simpl; intros H; try discriminate.
  inversion H as [Hc]. unfold of_Q. do 2 f_equal.
  apply Qc_is_canon. simpl. rewrite Hc. reflexivity.
Qed.

Lemma floats_of_Q (xs : list float) :
  forall qs, map to_Q xs = map (fun q => Some (Qred q)) qs -> xs = map of_Q qs.
Proof.
  induction xs as [| x xs IH]; intros [| q qs] H; simpl in *; try discriminate.
  - reflexivity.
  - inversion H as [[Hx Hxs]]. f_equal; [now apply float_of_Q | now apply IH].
Qed.

Lemma example_reads_closes :
  map snd (read_sql_query example_table "2024-01-01 00:00" "2024-01-01 00:04")
  = example_closes.
Proof. vm_compute. reflexivity. Qed.

Lemma example_result_unfold :
  example_result = inr (describe_percentiles (ratio_of_close 3 example_closes)).
Proof.
  unfold example_result.
  rewrite RollingFacts.calculate_on_rows.
  - now rewrite example_reads_closes.
  - rewrite example_reads_closes. exists (Fin (Q2Qc (inject_Z 10))). now left.
  - lia.
Qed.

(** The reported p50 of the example is not 12/11: three of the five
    ratios are 1, so the median is 1. *)
Lemma example_p50_is_not_12_11 :
  ~ (exists p, example_result = inr p /\ p50 p = of_Q (12 # 11)).
Proof.
  intros (p & Hp & H50). rewrite example_result_unfold in Hp.
  injection Hp as <-. apply (f_equal to_Q) in H50.
  vm_compute in H50. discriminate H50.
Qed.

(** C8 (amended).  For closes 10, 12, 11, 15, 9 and a window of 3 the
    rolling maxima are 10, 12, 12, 15, 15 and the ratios 1, 1, 12/11, 1,
    5/3.  The sorted ratios are 1, 1, 1, 12/11, 5/3, so p50 is 1, p75 is
    12/11 and p90 is 79/55, the point six tenths of the way from 12/11 to
    5/3. *)
Theorem example_percentiles :
  rolling_max_column 3 example_closes = map of_Z [10; 12; 12; 15; 15]
  /\ ratio_of_close 3 example_closes = map of_Q [1; 1; 12 # 11; 1; 5 # 3]%Q
  /\ map Num (sort (dropna (ratio_of_close 3 example_closes)))
     = map of_Q [1; 1; 1; 12 # 11; 5 # 3]%Q
  /\ example_result
     = inr {| p50 := of_Q 1; p75 := of_Q (12 # 11); p90 := of_Q (79 # 55) |}
  /\ (79 # 55 == (12 # 11) + (6 # 10) * ((5 # 3) - (12 # 11)))%Q.
Proof.
  split; [vm_compute; reflexivity |].
  split; [apply floats_of_Q; vm_compute; reflexivity |].
  split; [apply floats_of_Q; vm_compute; reflexivity |].
  split; [| reflexivity].
  rewrite example_result_unfold. unfold describe_percentiles.
  do 2 f_equal; apply float_of_Q; vm_compute; reflexivity.
Qed.

(** The percentiles see a column through its non-NaN cells only. *)
Lemma quantile_dropna (xs : list float) (q : Qc) :
  quantile (map Num (dropna xs)) q = quantile xs q.
Proof. unfold quantile. now rewrite dropna_map_Num. Qed.

Lemma quantile_skips_nan (xs ys : list float) (q : Qc) :
  quantile (xs ++ NaN :: ys) q = quantile (xs ++ ys) q.
Proof. unfold quantile. now rewrite !dropna_app. Qed.








End ExampleFacts.

(* ===================================================================== *)
(** ** Properties of the range query *)
(* ===================================================================== *)

Module RangeQueryFacts.

Import Float FloatFacts Store PrepTarget Examples TextFacts.

(** Nothing lies in a range whose lower end is above its upper end. *)
Lemma between_reversed (a b x : string) :
  String.ltb b a = true -> between a b x = false.
Proof.
  intros H. unfold between.
  destruct (String.leb a x) eqn:E1; [| reflexivity].
  destruct (String.leb x b) eqn:E2; [| reflexivity].
  rewrite <- (string_ltb_not_leb a b H). symmetry.
  now apply string_leb_trans with x.
Qed.

Lemma read_sql_query_nil (t : table) (a b : string) :
  read_sql_query t a b = [] <-> count_in_range t a b = 0%nat.
Proof.
  unfold read_sql_query, select_range, count_in_range.
  destruct (filter _ t); simpl; split; congruence.
Qed.

(** C6.  The call fails with the empty-range error exactly when the table
    has no row whose [open_time] lies in the closed range from
    [open_time_from] to [open_time_to] (both ends belong to the range);
    it does so whenever the lower end is above the upper end; and a call
    that fails returns no percentiles. *)
Theorem empty_range_error (t : table) (a b : string) (window : Z) :
  (calculate_target_percentiles t a b window = inl EmptyRange
   <-> count_in_range t a b = 0%nat)
  /\ (String.ltb b a = true ->
      calculate_target_percentiles t a b window = inl EmptyRange)
  /\ (forall e, calculate_target_percentiles t a b window = inl e ->
      forall p, calculate_target_percentiles t a b window <> inr p)
  /\ (forall r, In r t -> String.leb a b = true ->
      open_time r = a \/ open_time r = b ->
      calculate_target_percentiles t a b window <> inl EmptyRange).
Proof.
  assert (Hiff : calculate_target_percentiles t a b window = inl EmptyRange
                 <-> count_in_range t a b = 0%nat).
  { rewrite <- read_sql_query_nil. unfold calculate_target_percentiles.
    destruct (read_sql_query t a b) as [| row rows].
    - tauto.
    - destruct (window <? 1); [| destruct (object_column _)];
        split; discriminate. }
  split; [exact Hiff |]. split; [| split].
  - intros Hrev. apply Hiff. unfold count_in_range.
    rewrite (proj2 (length_zero_iff_nil _)); [reflexivity |].
    clear Hiff. induction t as [| r t IH]; simpl; [reflexivity |].
    now rewrite (between_reversed a b _ Hrev).
  - intros e -> p. discriminate.
  - intros r Hin Hab Hend Hfail. apply Hiff in Hfail. unfold count_in_range in Hfail.
    apply length_zero_iff_nil in Hfail.
    assert (Hb : between a b (open_time r) = true).
    { unfold between. destruct Hend as [-> | ->];
        rewrite string_leb_refl, Hab; reflexivity. }
    assert (Hr : In r (filter (fun r0 => between a b (open_time r0)) t))
      by (apply filter_In; auto).
    rewrite Hfail in Hr. contradiction.
Qed.

Lemma empty_range_error_witness :
  let t := [Examples.sample_candle 1704060000000 "2024-01-01 00:00" (Some (Fin 1%Qc))] in
  calculate_target_percentiles t "2024-01-02 00:00" "2024-01-01 00:00" 240
  = inl EmptyRange
  /\ calculate_target_percentiles t "2024-01-01 00:00" "2024-01-01 00:00" 240
     <> inl EmptyRange.
Proof.
  intros t. split.
  - apply (empty_range_error t "2024-01-02 00:00" "2024-01-01 00:00" 240). reflexivity.
  - apply (empty_range_error t "2024-01-01 00:00" "2024-01-01 00:00" 240)
      with (r := Examples.sample_candle 1704060000000 "2024-01-01 00:00" (Some (Fin 1%Qc))).
    + now left.
    + reflexivity.
    + now left.
Defined.






End RangeQueryFacts.

(* ===================================================================== *)
(** ** Further properties of the merge *)
(* ===================================================================== *)

Module MergeExtra.

Import Float Store Sync Examples.

Lemma keys_after_merge (rows : list Candle) (t : table) (k : Z) :
  In k (keys (executemany t rows)) <-> In k (keys t) \/ In k (keys rows).
Proof.
  rewrite <- !StoreFacts.has_key_In.
  assert (H : forall u, has_key k u = true <-> lookup k u <> None).
  { intros u. pose proof (StoreFacts.lookup_none_has_key k u) as L.
    destruct (has_key k u), (lookup k u); split; intros; try congruence;
      try discriminate.
    - exfalso. destruct L as [L _]. discriminate (L eq_refl).
    - exfalso. destruct L as [_ L]. discriminate (L eq_refl). }
  rewrite !H, StoreFacts.lookup_executemany.
  destruct (lookup k t), (lookup k rows); split; intros; try tauto;
    try discriminate; try (left; discriminate); try (right; discriminate).
Qed.

(** X1.  Which row a key names after a merge: the stored row if there was
    one, otherwise the first row of the batch with that key; and the keys
    of the table afterwards are those stored before and those submitted. *)
Theorem lookup_after_merge (rows : list Candle) (t : table) (k : Z) :
  lookup k (executemany t rows)
  = match lookup k t with
    | Some r => Some r
    | None => lookup k rows
    end
  /\ (In k (keys (executemany t rows)) <-> In k (keys t) \/ In k (keys rows)).
Proof. split; [apply StoreFacts.lookup_executemany | apply keys_after_merge]. Qed.

(** X2.  The next start after a merge is 60000 past the greatest key among
    the stored and the submitted rows, so on a table that was not empty it
    never moves back. *)
Theorem next_start_after_merge (t : table) (rows : list Candle) :
  t ++ rows <> [] ->
  (exists last,
     (In last (keys t) \/ In last (keys rows))
     /\ (forall k, In k (keys t) \/ In k (keys rows) -> k <= last)
     /\ start_ms (executemany t rows) = last + 60000)
  /\ (t <> [] -> start_ms t <= start_ms (executemany t rows)).
Proof.
  intros Hne.
  assert (Hne' : executemany t rows <> []).
  { pose proof (StoreFacts.length_executemany rows t) as L.
    intros E. rewrite E in L. simpl in L.
    destruct t as [| x t]; [| simpl in L; lia].
    destruct rows as [| r rows]; [contradiction |].
    simpl in E. unfold insert_or_ignore in E. simpl in E.
    pose proof (StoreFacts.length_executemany rows [r]) as L2.
    rewrite E in L2. simpl in L2. lia. }
  pose proof (SyncFacts.select_max_spec (executemany t rows)) as H.
  unfold start_ms.
  destruct (select_max (executemany t rows)) as [last |]; [| contradiction].
  destruct H as [Hin Hub]. split.
  - exists last. split; [now apply keys_after_merge |].
    split; [| reflexivity]. intros k Hk. apply Hub. now apply keys_after_merge.
  - intros Ht. pose proof (SyncFacts.select_max_spec t) as H0.
    destruct (select_max t) as [last0 |]; [| contradiction].
    simpl. unfold interval_ms. destruct H0 as [Hin0 _].
    assert (last0 <= last) by (apply Hub, keys_after_merge; now left). lia.
Qed.

Lemma next_start_after_merge_witness :
  let t := [sample_candle 1483228800000 "2017-01-01 02:00" None] in
  let rows := [sample_candle 1483228920000 "2017-01-01 02:02" None;
               sample_candle 1483228860000 "2017-01-01 02:01" None] in
  start_ms (executemany t rows) = 1483228980000
  /\ start_ms t <= start_ms (executemany t rows).
Proof.
  intros t rows.
  destruct (next_start_after_merge t rows) as [_ Hmono]; [discriminate |].
  split; [reflexivity | apply Hmono; discriminate].
Defined.






End MergeExtra.

(* ===================================================================== *)
(** ** Further properties of a run *)
(* ===================================================================== *)

Module RunExtra.

Import Float Store Sync Examples MoreExamples.

(** X3.  A fetch that returns no rows ends the run: the table is left as
    it is, nothing is written, and the message is the one for an empty
    answer. *)
Theorem empty_fetch_is_noop (parse : string -> option float) (ex : exchange) (w : world) :
  let start := start_ms (db w) in
  let stop := end_ms (get_server_time ex) in
  start < stop ->
  get_historical_klines ex start stop = [] ->
  sync_data parse ex w
  = (inr NoData,
     mkWorld (db w)
       (log w ++ [SelectMax; ServerTime; FetchKlines start stop; Print NoDataReturned])).
Proof.
  intros start stop Hlt Hraw. subst start stop.
  destruct (SyncFacts.sync_data_cases parse ex w)
    as [(Hge & _) | [(_ & _ & Hs) | [(_ & Hne & _) | (_ & Hne & _)]]];
    [lia | exact Hs | contradiction | contradiction].
Qed.

Lemma empty_fetch_is_noop_witness :
  sync_data parse_decimal (quiet_exchange 1483228925000) (mkWorld [] [])
  = (inr NoData,
     mkWorld [] [SelectMax; ServerTime; FetchKlines 1483228800000 1483228920000;
                 Print NoDataReturned]).
Proof.
  apply (empty_fetch_is_noop parse_decimal (quiet_exchange 1483228925000) (mkWorld [] []));
    reflexivity.
Defined.

Lemma map_result_inr {A B} (f : A -> error + B) (l : list A) :
  forall ys, map_result f l = inr ys ->
  forall x, In x l -> exists y, f x = inr y.
Proof.
  induction l as [| a l IH]; intros ys H x Hx; simpl in *; [contradiction |].
  destruct (f a) as [e | b] eqn:Ea; [discriminate |].
  destruct (map_result f l) as [e | bs]; [discriminate |].
  destruct Hx as [<- | Hx]; [eauto | eapply IH; eauto].
Qed.

Lemma astype_inr (z z' : Z) : astype_int64 z = inr z' -> z' = z.
Proof. unfold astype_int64. destruct (_ && _); intros H; now inversion H. Qed.

Lemma map_result_astype (l : list Z) :
  forall ys, map_result astype_int64 l = inr ys -> ys = l.
Proof.
  induction l as [| a l IH]; intros ys H; simpl in *; [now inversion H |].
  destruct (astype_int64 a) as [e | b] eqn:Ea; [discriminate |].
  destruct (map_result astype_int64 l) as [e | bs]; [discriminate |].
  inversion H. f_equal; [now apply astype_inr | now apply IH].
Qed.

(** A display string exists only for open times in range. *)
Lemma display_time_inr (ms : Z) (shown : string) :
  display_time ms = inr shown -> ms_lo <= ms <= ms_hi.
Proof.
  unfold display_time, Timestamp.to_datetime_ms, Timestamp.add_hours,
    Timestamp.in_bounds, Timestamp.ns_min, Timestamp.ns_max, Timestamp.ns_per_ms,
    Timestamp.ns_per_hour, ms_lo, ms_hi.
  destruct (Z.leb_spec (-9223372036854775807) (ms * 1000000));
    destruct (Z.leb_spec (ms * 1000000) 9223372036854775807);
    cbn [andb]; try discriminate.
  destruct (Z.leb_spec (-9223372036854775807) (ms * 1000000 + 2 * 3600000000000));
    destruct (Z.leb_spec (ms * 1000000 + 2 * 3600000000000) 9223372036854775807);
    cbn [andb]; try discriminate.
  intros _. lia.
Qed.

Lemma normalize_batch_inr (parse : string -> option float) (raw : list kline)
    (records : list Candle) :
  normalize_batch parse raw = inr records ->
  forall k, In k raw -> ms_lo <= k_open_time k <= ms_hi.
Proof.
  unfold normalize_batch. intros H k Hk.
  destruct (map_result astype_int64 (map k_open_time raw)) as [e | col] eqn:E1;
    [discriminate |].
  apply map_result_astype in E1. subst col.
  destruct (map_result display_time (map k_open_time raw)) as [e | shown] eqn:E2;
    [discriminate |].
  destruct (map_result_inr _ _ _ E2 (k_open_time k)) as [s Hs];
    [now apply in_map |].
  now apply display_time_inr in Hs.
Qed.

Lemma normalize_batch_shape (parse : string -> option float) (raw : list kline)
    (records : list Candle) :
  normalize_batch parse raw = inr records ->
  List.length records = List.length raw /\ keys records = map k_open_time raw.
Proof.
  intros H. pose proof (normalize_batch_inr _ _ _ H) as Hr.
  rewrite NormalizeFacts.normalize_batch_in_range in H by exact Hr.
  inversion H. split; [apply length_map | apply NormalizeFacts.keys_normalized].
Qed.





End RunExtra.

Module ReportExtra.

Import Float Store Sync Examples TextFacts.

(** X7.  The count a run reports is the number of rows fetched, not the
    number written: the table grows by at most that many rows, and by none
    when every fetched key is already stored. *)
Theorem reported_count_is_submitted (parse : string -> option float) (ex : exchange)
    (w : world) (n : nat) :
  let raw := get_historical_klines ex (start_ms (db w)) (end_ms (get_server_time ex)) in
  let run := sync_data parse ex w in
  fst run = inr (Synced n) ->
  n = List.length raw
  /\ In (Print (InsertedRows n)) (log (snd run))
  /\ (List.length (db (snd run)) <= List.length (db w) + n)%nat
  /\ ((forall k, In k raw -> has_key (k_open_time k) (db w) = true) ->
      db (snd run) = db w).
Proof.
  intros raw run. subst raw run.
  destruct (SyncFacts.sync_data_cases parse ex w)
    as [(_ & ->) | [(_ & _ & ->) | [(_ & _ & e & _ & ->) | (_ & _ & rs & He & ->)]]];
    cbn [fst snd db log]; intros H; try discriminate.
  injection H as Hn. subst n.
  destruct (RunExtra.normalize_batch_shape parse _ rs He) as [Hlen Hkeys].
  split; [exact Hlen |]. split; [| split].
  - apply in_or_app. right. simpl. tauto.
  - apply StoreFacts.length_executemany.
  - intros Hall. apply StoreFacts.executemany_all_present.
    intros r Hr.
    assert (Hk : In (open_time_ms r) (keys rs)) by now apply in_map.
    rewrite Hkeys in Hk. apply in_map_iff in Hk as (k & Ek & Hk).
    rewrite <- Ek. now apply Hall.
Qed.

End ReportExtra.

Module RunExtra2.

Import Float Store Sync Examples MoreExamples TextFacts.

Lemma reported_count_is_submitted_witness :
  let w := mkWorld [sample_candle 1483228800000 "2017-01-01 02:00" (Some (Fin 1%Qc))] [] in
  let run := sync_data parse_decimal replaying_exchange w in
  fst run = inr (Synced 1) /\ db (snd run) = db w.
Proof.
  intros w run.
  assert (H : fst run = inr (Synced 1)) by (vm_compute; reflexivity).
  split; [exact H |].
  destruct (ReportExtra.reported_count_is_submitted parse_decimal replaying_exchange w 1 H)
    as (_ & _ & _ & Hsame).
  apply Hsame. intros k [<- | []]. reflexivity.
Defined.

(** X8.  Running again at the same server time does nothing when the
    first run fetched the candle of the last complete minute: the second
    run returns "nothing to do" and leaves the table as the first left
    it.  The batch of the first run is taken to be one whose open times are
    representable and whose numeric cells are bound as they are. *)
Theorem second_run_is_noop (parse : string -> option float) (ex : exchange)
    (w : world) (n : nat) (k : kline) :
  let stop := end_ms (get_server_time ex) in
  let raw := get_historical_klines ex (start_ms (db w)) stop in
  let w1 := snd (sync_data parse ex w) in
  plain_batch parse raw ->
  fst (sync_data parse ex w) = inr (Synced n) ->
  In k raw ->
  stop - 60000 <= k_open_time k ->
  sync_data parse ex w1
  = (inr NothingToDo,
     mkWorld (db w1) (log w1 ++ [SelectMax; ServerTime; Print NoNewData])).
Proof.
  intros stop raw w1 _ Hres Hin Hlast.
  assert (Hkey : In (k_open_time k) (keys (db w1))).
  { subst w1 raw stop. revert Hres.
    destruct (SyncFacts.sync_data_cases parse ex w)
      as [(_ & ->) | [(_ & _ & ->) | [(_ & _ & e & _ & ->) | (_ & _ & rs & He & ->)]]];
      cbn [fst snd db]; intros Hres; try discriminate.
    apply MergeExtra.keys_after_merge. right.
    destruct (RunExtra.normalize_batch_shape parse _ rs He) as [_ ->].
    now apply in_map. }
  assert (Hstart : stop <= start_ms (db w1)).
  { pose proof (SyncFacts.select_max_spec (db w1)) as Hm. unfold start_ms.
    destruct (select_max (db w1)) as [last |].
    - destruct Hm as [_ Hub]. specialize (Hub _ Hkey). simpl. unfold interval_ms. lia.
    - rewrite Hm in Hkey. contradiction. }
  destruct (SyncFacts.sync_data_cases parse ex w1)
    as [(_ & Hs) | [(Hlt & _) | [(Hlt & _) | (Hlt & _)]]];
    [exact Hs | | |]; exfalso; fold stop in Hlt; lia.
Qed.

Lemma second_run_is_noop_witness :
  let w1 := snd (sync_data parse_decimal three_row_exchange (mkWorld [] [])) in
  fst (sync_data parse_decimal three_row_exchange w1) = inr NothingToDo
  /\ db (snd (sync_data parse_decimal three_row_exchange w1)) = db w1.
Proof.
  intros w1. subst w1.
  rewrite (second_run_is_noop parse_decimal three_row_exchange (mkWorld [] []) 3
             (sample_kline 1483228920000 "231.6")).
  - split; reflexivity.
  - intros x Hx. simpl in Hx. destruct Hx as [<- | [<- | [<- | []]]];
      (split; [vm_compute; split; discriminate |]);
      intros g; destruct g; vm_compute; try exact I; split; reflexivity.
  - vm_compute. reflexivity.
  - right. right. now left.
  - vm_compute. discriminate.
Defined.

Lemma string_ltb_leb (x s : string) : String.ltb x s = true -> String.leb x s = true.
Proof. unfold String.ltb, String.leb. now destruct (String.compare x s). Qed.

Lemma string_ltb_false (x s : string) : String.ltb x s = false -> String.leb s x = true.
Proof.
  unfold String.ltb, String.leb. rewrite (String.compare_antisym x s).
  destruct (String.compare s x); simpl; intros H; trivial; discriminate.
Qed.

Lemma string_min_spec (l : list string) :
  forall s, In (string_min s l) (s :: l)
            /\ forall x, In x (s :: l) -> String.leb (string_min s l) x = true.
Proof.
  induction l as [| y l IH]; intros s; simpl.
  - split; [now left |]. intros x [<- | []]. apply string_leb_refl.
  - destruct (IH (if String.ltb y s then y else s)) as [Hin Hlb]. split.
    + destruct Hin as [Hin | Hin]; [| right; right; exact Hin].
      rewrite <- Hin. destruct (String.ltb y s); auto.
    + intros x [Ex | [Ex | Hx]]; [subst x | subst x |].
      * destruct (String.ltb y s) eqn:E.
        -- apply string_leb_trans with y; [apply Hlb; now left | now apply string_ltb_leb].
        -- apply Hlb. now left.
      * destruct (String.ltb y s) eqn:E.
        -- apply Hlb. now left.
        -- apply string_leb_trans with s; [apply Hlb; now left | now apply string_ltb_false].
      * apply Hlb. now right.
Qed.

Lemma string_max_spec (l : list string) :
  forall s, In (string_max s l) (s :: l)
            /\ forall x, In x (s :: l) -> String.leb x (string_max s l) = true.
Proof.
  induction l as [| y l IH]; intros s; simpl.
  - split; [now left |]. intros x [<- | []]. apply string_leb_refl.
  - destruct (IH (if String.ltb s y then y else s)) as [Hin Hub]. split.
    + destruct Hin as [Hin | Hin]; [| right; right; exact Hin].
      rewrite <- Hin. destruct (String.ltb s y); auto.
    + intros x [Ex | [Ex | Hx]]; [subst x | subst x |].
      * destruct (String.ltb s y) eqn:E.
        -- apply string_leb_trans with y; [now apply string_ltb_leb | apply Hub; now left].
        -- apply Hub. now left.
      * destruct (String.ltb s y) eqn:E.
        -- apply Hub. now left.
        -- apply string_leb_trans with s; [now apply string_ltb_false | apply Hub; now left].
      * apply Hub. now right.
Qed.

(** X9.  The range a run reports spans the submitted rows: its two ends
    are display strings of submitted records, and every submitted record's
    display string lies between them. *)
Theorem reported_range_bounds (parse : string -> option float) (ex : exchange)
    (w : world) (n : nat) :
  let raw := get_historical_klines ex (start_ms (db w)) (end_ms (get_server_time ex)) in
  let run := sync_data parse ex w in
  fst run = inr (Synced n) ->
  exists records first last,
    normalize_batch parse raw = inr records
    /\ In (Print (RangeInserted first last)) (log (snd run))
    /\ In first (map open_time records)
    /\ In last (map open_time records)
    /\ forall s, In s (map open_time records) ->
         String.leb first s = true /\ String.leb s last = true.
Proof.
  intros raw run. subst raw run.
  destruct (SyncFacts.sync_data_cases parse ex w)
    as [(_ & ->) | [(_ & _ & ->) | [(_ & _ & e & _ & ->) | (_ & Hne & rs & He & ->)]]];
    cbn [fst snd db log]; intros H; try discriminate.
  assert (Hrs : map open_time rs <> []).
  { destruct (RunExtra.normalize_batch_shape parse _ rs He) as [Hlen _].
    intros E. apply (f_equal (@List.length _)) in E. rewrite length_map, Hlen in E.
    destruct (get_historical_klines ex _ _); [contradiction | discriminate]. }
  unfold range_message.
  destruct (map open_time rs) as [| s l] eqn:E; [contradiction |].
  destruct (string_min_spec l s) as [Hmin Hlb].
  destruct (string_max_spec l s) as [Hmax Hub].
  exists rs, (string_min s l), (string_max s l).
  split; [exact He |]. split; [apply in_or_app; right; simpl; tauto |].
  rewrite E. split; [exact Hmin |]. split; [exact Hmax |].
  intros x Hx. split; [now apply Hlb | now apply Hub].
Qed.

Lemma reported_range_bounds_witness :
  In (Print (RangeInserted "2017-01-01 02:00" "2017-01-01 02:02"))
     (log (snd (sync_data parse_decimal three_row_exchange (mkWorld [] [])))).
Proof.
  destruct (reported_range_bounds parse_decimal three_row_exchange (mkWorld [] []) 3)
    as (records & first & last & He & Hlog & Hf & Hl & Hb).
  - vm_compute. reflexivity.
  - vm_compute in He. injection He as <-.
    simpl in Hf, Hl, Hb.
    assert (Ef : first = "2017-01-01 02:00"%string).
    { destruct (Hb "2017-01-01 02:00"%string ltac:(auto)) as [H1 _].
      destruct Hf as [<- | [<- | [<- | []]]]; [reflexivity | discriminate H1 | discriminate H1]. }
    assert (El : last = "2017-01-01 02:02"%string).
    { destruct (Hb "2017-01-01 02:02"%string ltac:(auto)) as [_ H2].
      destruct Hl as [<- | [<- | [<- | []]]]; [discriminate H2 | discriminate H2 | reflexivity]. }
    now rewrite Ef, El in Hlog.
Defined.

End RunExtra2.

Module DisplayExtra.

Import Float Store Sync Examples TextFacts.

Lemma display_time_text (ms : Z) (shown : string) :
  display_time ms = inr shown ->
  ms_lo <= ms <= ms_hi /\ shown = display_text ms.
Proof.
  intros H. pose proof (RunExtra.display_time_inr _ _ H) as Hr.
  rewrite NormalizeFacts.display_time_in_range in H by exact Hr.
  split; [exact Hr | now inversion H].
Qed.

(** The text of a timestamp depends on its minute only. *)
Lemma strftime_same_minute (ns1 ns2 : Z) :
  ns1 / Timestamp.ns_per_minute = ns2 / Timestamp.ns_per_minute ->
  Timestamp.strftime ns1 = Timestamp.strftime ns2.
Proof. intros H. unfold Timestamp.strftime. now rewrite H. Qed.

Lemma shifted_minute (ms : Z) : (ms + 2 * 3600000) / 60000 = ms / 60000 + 120.
Proof.
  replace (ms + 2 * 3600000) with (ms + 120 * 60000) by lia.
  apply Z.div_add. discriminate.
Qed.

(** X10.  Display strings follow time and tell minutes apart: of two open
    times that have one, the later never has the smaller string, and the
    strings are equal exactly when the open times lie in the same
    minute. *)
Theorem display_time_order (ms1 ms2 : Z) (s1 s2 : string) :
  display_time ms1 = inr s1 ->
  display_time ms2 = inr s2 ->
  (ms1 <= ms2 -> String.leb s1 s2 = true)
  /\ (s1 = s2 <-> ms1 / 60000 = ms2 / 60000).
Proof.
  intros H1 H2.
  apply display_time_text in H1 as [R1 ->]. apply display_time_text in H2 as [R2 ->].
  split; [now apply NormalizeFacts.display_text_mono |].
  destruct (NormalizeFacts.display_text_reads ms1 R1) as [_ D1].
  destruct (NormalizeFacts.display_text_reads ms2 R2) as [_ D2].
  rewrite shifted_minute in D1, D2.
  split.
  - intros E. rewrite E, D2 in D1.
    assert (D : 60000 * (ms2 / 60000 + 120) = 60000 * (ms1 / 60000 + 120))
      by congruence.
    lia.
  - intros E. unfold display_text. apply strftime_same_minute.
    unfold Timestamp.ns_per_ms, Timestamp.ns_per_hour, Timestamp.ns_per_minute.
    cbv zeta.
    set (a := ms1 * 1000000 + 2 * 3600000000000).
    set (b := ms2 * 1000000 + 2 * 3600000000000).
    assert (Ha : (a - a mod 60000000000) / 60000000000 = (ms1 + 2 * 3600000) / 60000)
      by (unfold a; clear; Z.div_mod_to_equations; lia).
    assert (Hb : (b - b mod 60000000000) / 60000000000 = (ms2 + 2 * 3600000) / 60000)
      by (unfold b; clear; Z.div_mod_to_equations; lia).
    rewrite Ha, Hb, !shifted_minute. now rewrite E.
Qed.

Lemma display_time_order_witness :
  String.leb "2017-01-01 02:00" "2017-01-01 02:01" = true
  /\ 1483228800000 / 60000 = 1483228859999 / 60000.
Proof.
  split.
  - destruct (display_time_order 1483228859999 1483228860000
                "2017-01-01 02:00" "2017-01-01 02:01" eq_refl eq_refl) as [Hle _].
    apply Hle. lia.
  - destruct (display_time_order 1483228800000 1483228859999
                "2017-01-01 02:00" "2017-01-01 02:00" eq_refl eq_refl) as [_ [Hsame _]].
    now apply Hsame.
Defined.

End DisplayExtra.

Module RunsExtra.

Import Float Store Sync Examples MoreExamples TextFacts SyncRuns.






(** X12.  What a run never does: it never asks for an empty or reversed
    window or one that ends after the server time, and it never changes
    the table without having fetched, inserted and committed. *)
Theorem run_never_writes_blind (parse : string -> option float) (ex : exchange)
    (w : world) :
  let run := sync_data parse ex w in
  exists evs,
    log (snd run) = log w ++ evs
    /\ (forall a b, In (FetchKlines a b) evs ->
        a < b /\ b mod 60000 = 0 /\ b <= get_server_time ex)
    /\ (db (snd run) <> db w ->
        exists a b records,
          In (FetchKlines a b) evs /\ In (InsertMany records) evs /\ In Commit evs
          /\ db (snd run) = executemany (db w) records
          /\ fst run = inr (Synced (List.length records))).
Proof.
  intros run. subst run.
  assert (Hend : end_ms (get_server_time ex) mod 60000 = 0
                 /\ end_ms (get_server_time ex) <= get_server_time ex).
  { unfold end_ms, interval_ms. Z.div_mod_to_equations. lia. }
  destruct (SyncFacts.sync_data_cases parse ex w)
    as [(_ & ->) | [(Hlt & _ & ->) | [(Hlt & _ & e & _ & ->) | (Hlt & _ & rs & He & ->)]]];
    cbn [fst snd db log]; eexists; (split; [reflexivity |]); split;
    try (intros a b Hin; simpl in Hin;
         repeat (destruct Hin as [Hin | Hin]; [try discriminate |]);
         try contradiction; injection Hin as <- <-; tauto);
    try (intros Hneq; now contradiction Hneq).
  intros _. exists (start_ms (db w)), (end_ms (get_server_time ex)), rs.
  simpl. tauto.
Qed.

Lemma run_never_writes_blind_witness :
  let run := sync_data parse_decimal three_row_exchange (mkWorld [] []) in
  exists records,
    db (snd run) = executemany [] records
    /\ fst run = inr (Synced (List.length records)).
Proof.
  intros run.
  destruct (run_never_writes_blind parse_decimal three_row_exchange (mkWorld [] []))
    as (evs & _ & _ & Hw).
  destruct Hw as (a & b & records & _ & _ & _ & Hdb & Hres).
  - vm_compute. discriminate.
  - exists records. split; assumption.
Defined.

End RunsExtra.

(* ===================================================================== *)
(** ** Further properties of the rolling maximum and of the ratio *)
(* ===================================================================== *)

Module RollingExtra.

Import Float FloatFacts Store PrepTarget Examples RollingFacts.



Lemma slice_one {A} (l : list A) (i : nat) (x : A) :
  nth_error l i = Some x -> slice l i (i + 1) = [x].
Proof.
  intros E. unfold slice. replace (i + 1 - i)%nat with 1%nat by lia.
  apply nth_error_split in E as (l1 & l2 & -> & <-).
  rewrite skipn_app, skipn_all, Nat.sub_diag. reflexivity.
Qed.

(** X14.  With a window of one row the rolling maximum is the close
    column with its infinities replaced by NaN; it is the close column
    itself when no close is an infinity. *)
Theorem rolling_max_window_one (close : list float) :
  rolling_max_column 1 close = prep_values close
  /\ ((forall x, In x close -> x <> Num PInf /\ x <> Num NInf) ->
      rolling_max_column 1 close = close).
Proof.
  assert (H : rolling_max_column 1 close = prep_values close).
  { apply nth_error_ext. intros i.
    destruct (Nat.lt_ge_cases i (List.length close)) as [Hi | Hi].
    - unfold rolling_max_column. rewrite nth_error_rolling_max by exact Hi.
      replace (i + 1 - 1)%nat with i by lia.
      destruct (nth_error (prep_values close) i) as [x |] eqn:E;
        [| apply nth_error_None in E; rewrite length_prep_values in E; lia].
      rewrite (slice_one _ _ _ E). now destruct x.
    - rewrite (proj2 (nth_error_None _ _)) by (unfold rolling_max_column;
        now rewrite length_rolling_max).
      symmetry. apply nth_error_None. now rewrite length_prep_values. }
  split; [exact H |]. intros Hfin. rewrite H. unfold prep_values.
  rewrite <- (map_id close) at 2. apply map_ext_in.
  intros x Hx. destruct (Hfin x Hx) as [Hp Hn].
  destruct x as [[q | |] |]; simpl; congruence.
Qed.

Lemma rolling_max_window_one_witness :
  rolling_max_column 1 [of_Z 3; NaN; of_Z 1] = [of_Z 3; NaN; of_Z 1].
Proof.
  apply (proj2 (rolling_max_window_one [of_Z 3; NaN; of_Z 1])).
  intros x [<- | [<- | [<- | []]]]; split; discriminate.
Defined.

Ltac qc2q :=
  unfold Qcle, Qclt, Qcdiv, Qcminus in *;
  cbn [this Q2Qc Qcplus Qcmult Qcopp Qcinv] in *;
  rewrite ?Qred_correct in *.

Lemma Qcdiv_ge_1 (m c : Qc) : (0 < c)%Qc -> (c <= m)%Qc -> (1 <= m / c)%Qc.
Proof.
  intros Hc Hm.
  apply Qcmult_lt_0_le_reg_r with c; [exact Hc |].
  rewrite Qcmult_1_l. unfold Qcdiv.
  rewrite <- Qcmult_assoc, Qcmult_inv_l, Qcmult_1_r; [exact Hm |].
  intros E. rewrite E in Hc. discriminate.
Qed.

Lemma Qceqb_pos (c : Qc) : (0 < c)%Qc -> Qceqb c 0%Qc = false.
Proof.
  intros Hc. unfold Qceqb. destruct (Qeq_bool c 0%Qc) eqn:E; [| reflexivity].
  apply Qeq_bool_iff in E. apply Qc_is_canon in E. rewrite E in Hc. discriminate.
Qed.

(** In a window of finite numbers the rolling maximum is a number of the
    window that bounds the others. *)
Lemma rolling_max_numbers (close : list float) (window i : nat) :
  let lo := (i + 1 - window)%nat in
  (1 <= window)%nat -> (i < List.length close)%nat ->
  (forall j, (lo <= j <= i)%nat ->
     exists c, nth_error close j = Some (Num (Fin c))) ->
  exists m,
    nth_error (rolling_max_column window close) i = Some (Num (Fin m))
    /\ (exists j, (lo <= j <= i)%nat /\ nth_error close j = Some (Num (Fin m)))
    /\ (forall j c, (lo <= j <= i)%nat ->
        nth_error close j = Some (Num (Fin c)) -> (c <= m)%Qc).
Proof.
  intros lo Hw Hi Hnum.
  destruct (rolling_max_at close window i Hi) as (v & Hv & Hnan & Hmax).
  destruct v as [r |].
  - destruct (Hmax r eq_refl) as (m & -> & Hatt & Hub).
    exists m. split; [exact Hv |]. split; [exact Hatt | exact Hub].
  - exfalso. destruct (Hnum i ltac:(unfold lo; lia)) as [c Hc].
    apply (proj1 Hnan eq_refl i c); [unfold lo; lia | exact Hc].
Qed.

Lemma ratio_ge_one (close : list float) (window i : nat) :
  let lo := (i + 1 - window)%nat in
  (1 <= window)%nat -> (i < List.length close)%nat ->
  (forall j, (lo <= j <= i)%nat ->
     exists c, nth_error close j = Some (Num (Fin c)) /\ (0 < c)%Qc) ->
  exists q,
    nth_error (ratio_of_close window close) i = Some (Num (Fin q)) /\ (1 <= q)%Qc.
Proof.
  intros lo Hw Hi Hpos.
  destruct (rolling_max_numbers close window i Hw Hi) as (m & Hm & _ & Hub).
  { intros j Hj. destruct (Hpos j Hj) as (c & Hc & _). eauto. }
  destruct (Hpos i ltac:(lia)) as (ci & Hci & Hci0).
  pose proof (Hub i ci ltac:(lia) Hci) as Hle.
  exists (m / ci)%Qc. split; [| now apply Qcdiv_ge_1].
  unfold ratio_of_close. rewrite (nth_error_ratio_column _ _ i _ _ Hm Hci).
  unfold fdiv. now rewrite Qceqb_pos.
Qed.

(** X15.  With positive finite closes the ratio is at least one: the
    maximum of a trailing window that contains the row is not below the
    row's own close. *)
Theorem ratio_at_least_one (close : list float) (window i : nat) :
  let lo := (i + 1 - window)%nat in
  (1 <= window)%nat -> (i < List.length close)%nat ->
  (forall j, (lo <= j <= i)%nat ->
     exists c, nth_error close j = Some (Num (Fin c)) /\ (0 < c)%Qc) ->
  exists q,
    nth_error (ratio_of_close window close) i = Some (Num (Fin q)) /\ (1 <= q)%Qc.
Proof. apply ratio_ge_one. Qed.

Lemma ratio_at_least_one_witness :
  exists q,
    nth_error (ratio_of_close 3 (map of_Z [10; 12; 11; 15; 9])) 4 = Some (Num (Fin q))
    /\ (1 <= q)%Qc.
Proof.
  apply (ratio_at_least_one (map of_Z [10; 12; 11; 15; 9]) 3 4).
  - lia.
  - simpl. lia.
  - intros j Hj. simpl in Hj.
    assert (C : j = 2%nat \/ j = 3%nat \/ j = 4%nat) by lia.
    destruct C as [-> | [-> | ->]]; eexists; (split; [reflexivity | reflexivity]).
Defined.

(** X16.  A longer window never lowers the rolling maximum, the closes of
    the longer window being finite numbers. *)
Theorem rolling_max_grows_with_window (close : list float) (w1 w2 i : nat) :
  (1 <= w1 <= w2)%nat -> (i < List.length close)%nat ->
  (forall j, (i + 1 - w2 <= j <= i)%nat ->
     exists c, nth_error close j = Some (Num (Fin c))) ->
  exists m1 m2,
    nth_error (rolling_max_column w1 close) i = Some (Num (Fin m1))
    /\ nth_error (rolling_max_column w2 close) i = Some (Num (Fin m2))
    /\ (m1 <= m2)%Qc.
Proof.
  intros Hw Hi Hnum.
  destruct (rolling_max_numbers close w1 i) as (m1 & H1 & (j & Hj & Ej) & _);
    [lia | exact Hi | intros j Hj; apply Hnum; lia |].
  destruct (rolling_max_numbers close w2 i) as (m2 & H2 & _ & Hub);
    [lia | exact Hi | exact Hnum |].
  exists m1, m2. split; [exact H1 |]. split; [exact H2 |].
  apply (Hub j); [lia | exact Ej].
Qed.

Lemma rolling_max_grows_with_window_witness :
  exists m1 m2,
    nth_error (rolling_max_column 1 (map of_Z [10; 12; 11; 15; 9])) 4
    = Some (Num (Fin m1))
    /\ nth_error (rolling_max_column 3 (map of_Z [10; 12; 11; 15; 9])) 4
       = Some (Num (Fin m2))
    /\ (m1 <= m2)%Qc.
Proof.
  apply (rolling_max_grows_with_window (map of_Z [10; 12; 11; 15; 9]) 1 3 4).
  - lia.
  - simpl. lia.
  - intros j Hj. simpl in Hj.
    assert (C : j = 2%nat \/ j = 3%nat \/ j = 4%nat) by lia.
    destruct C as [-> | [-> | ->]]; eexists; reflexivity.
Defined.

End RollingExtra.

(* ===================================================================== *)
(** ** Properties of the percentiles *)
(* ===================================================================== *)

Module QuantileFacts.

Import Float FloatFacts Store PrepTarget Examples RollingFacts SortFacts QuantileDefs.

Ltac qc2q :=
  unfold Qcle, Qclt, Qcdiv, Qcminus in *;
  cbn [this Q2Qc Qcplus Qcmult Qcopp Qcinv] in *;
  rewrite ?Qred_correct in *.

Lemma lerp_fin (a b t : Qc) :
  lerp (Num (Fin a)) (Num (Fin b)) t = Num (Fin (a + (b - a) * t)%Qc).
Proof.
  unfold lerp, fsub, fadd, fneg, fmul, real_neg.
  destruct (Qcleb (Q2Qc (1 # 2)) t); do 2 f_equal; ring.
Qed.

Lemma getitem_fin (qs : list Qc) (k : Z) :
  0 <= k < Z.of_nat (List.length qs) ->
  getitem (map Fin qs) k = Num (Fin (nthq qs k)).
Proof.
  intros Hk. unfold getitem, nthq.
  rewrite (proj2 (Z.ltb_ge k 0)) by lia. rewrite (proj2 (Z.ltb_ge k 0)) by lia.
  rewrite nth_error_map, (nth_error_nth' qs 0%Qc) by lia. reflexivity.
Qed.

Lemma Qcleb_false (a b : Qc) : (b < a)%Qc -> Qcleb a b = false.
Proof.
  intros H. destruct (Qcleb a b) eqn:E; [| reflexivity].
  apply Qcleb_le in E. now apply Qclt_not_le in H.
Qed.

Lemma Qcleb_true (a b : Qc) : (a <= b)%Qc -> Qcleb a b = true.
Proof. apply Qcleb_le. Qed.

(** The floor of a rational between [0] and [N]. *)
Lemma floor_range (x : Qc) (N : Z) :
  (0 <= x)%Qc -> (x < Q2Qc (inject_Z N))%Qc -> 0 <= Qfloor x < N.
Proof.
  intros H0 HN. qc2q. split.
  - change 0 with (Qfloor (inject_Z 0)). now apply Qfloor_resp_le.
  - rewrite Zlt_Qlt. eapply Qle_lt_trans; [apply Qfloor_le | exact HN].
Qed.

Lemma floor_gamma (x : Qc) :
  (0 <= x - Q2Qc (inject_Z (Qfloor x)))%Qc
  /\ (x - Q2Qc (inject_Z (Qfloor x)) < 1)%Qc.
Proof.
  pose proof (Qfloor_le x) as H1. pose proof (Qlt_floor x) as H2.
  rewrite inject_Z_plus in H2. qc2q. change (inject_Z 1) with 1%Q in H2.
  split; lra.
Qed.

Section Sorted.

Variable qs : list Qc.
Let n : Z := Z.of_nat (List.length qs).
Hypothesis sorted : forall i j, 0 <= i <= j -> j < n -> (nthq qs i <= nthq qs j)%Qc.

Lemma interp_between (x : Qc) :
  (0 <= x)%Qc -> (x < Q2Qc (inject_Z (n - 1)))%Qc ->
  (nthq qs (Qfloor x) <= interp qs x)%Qc
  /\ (interp qs x <= nthq qs (Qfloor x + 1))%Qc.
Proof.
  intros H0 Hn. pose proof (floor_range x (n - 1) H0 Hn) as Hp.
  pose proof (floor_gamma x) as [G0 G1].
  assert (Hab : (nthq qs (Qfloor x) <= nthq qs (Qfloor x + 1))%Qc)
    by (apply sorted; lia).
  unfold interp. cbv zeta.
  set (a := nthq qs (Qfloor x)) in *. set (b := nthq qs (Qfloor x + 1)) in *.
  set (g := (x - Q2Qc (inject_Z (Qfloor x)))%Qc) in *.
  clearbody a b g. clear - Hab G0 G1. qc2q. split; nra.
Qed.

Lemma interp_mono (x1 x2 : Qc) :
  (0 <= x1)%Qc -> (x1 <= x2)%Qc -> (x2 < Q2Qc (inject_Z (n - 1)))%Qc ->
  (interp qs x1 <= interp qs x2)%Qc.
Proof.
  intros H0 H12 Hn.
  assert (H0' : (0 <= x2)%Qc) by (eapply Qcle_trans; eauto).
  assert (Hn' : (x1 < Q2Qc (inject_Z (n - 1)))%Qc) by (eapply Qcle_lt_trans; eauto).
  pose proof (floor_range x1 (n - 1) H0 Hn') as Hp1.
  pose proof (floor_range x2 (n - 1) H0' Hn) as Hp2.
  assert (Hfl : Qfloor x1 <= Qfloor x2) by (apply Qfloor_resp_le; exact H12).
  destruct (Z.eq_dec (Qfloor x1) (Qfloor x2)) as [E | N].
  - pose proof (floor_gamma x1) as [G0 _]. pose proof (floor_gamma x2) as [_ G1].
    assert (Hab : (nthq qs (Qfloor x1) <= nthq qs (Qfloor x1 + 1))%Qc)
      by (apply sorted; lia).
    unfold interp. cbv zeta. rewrite <- E in *.
    set (a := nthq qs (Qfloor x1)) in *. set (b := nthq qs (Qfloor x1 + 1)) in *.
    set (p := Q2Qc (inject_Z (Qfloor x1))) in *.
    clearbody a b p. clear - Hab G0 G1 H12. qc2q. nra.
  - destruct (interp_between x1 H0 Hn') as [_ U1].
    destruct (interp_between x2 H0' Hn) as [L2 _].
    eapply Qcle_trans; [exact U1 |]. eapply Qcle_trans; [| exact L2].
    apply sorted; lia.
Qed.

Lemma quantile_sorted_interp (q : Qc) :
  2 <= n -> (0 <= q)%Qc -> (q < 1)%Qc ->
  quantile_sorted (map Fin qs) q
  = Num (Fin (interp qs (q * Q2Qc (inject_Z (n - 1)))%Qc)).
Proof.
  intros Hn2 Hq0 Hq1. unfold quantile_sorted. rewrite length_map. fold n. cbv zeta.
  set (N := Q2Qc (inject_Z (n - 1))).
  assert (HN : (0 < N)%Qc).
  { unfold N. qc2q. change 0%Q with (inject_Z 0). rewrite <- Zlt_Qlt. lia. }
  assert (Hv0 : (0 <= q * N)%Qc) by (clearbody N; clear - Hq0 HN; qc2q; nra).
  assert (Hv1 : (q * N < N)%Qc) by (clearbody N; clear - Hq1 HN; qc2q; nra).
  rewrite (Qcleb_false N (q * N)%Qc Hv1), (Qcleb_true 0%Qc (q * N)%Qc Hv0).
  cbn [negb].
  pose proof (floor_range (q * N)%Qc (n - 1) Hv0 Hv1) as Hp.
  rewrite !getitem_fin by (fold n; lia).
  rewrite lerp_fin. reflexivity.
Qed.

End Sorted.

Lemma quantile_sorted_single (a q : Qc) : quantile_sorted [Fin a] q = Num (Fin a).
Proof.
  unfold quantile_sorted.
  replace (Z.of_nat (List.length [Fin a]) - 1) with 0 by reflexivity.
  change (Q2Qc (inject_Z 0)) with 0%Qc. rewrite Qcmult_0_r.
  change (Qcleb 0%Qc 0%Qc) with true. cbv iota zeta.
  change (getitem [Fin a] (-1)) with (Num (Fin a)).
  rewrite lerp_fin. do 2 f_equal. ring.
Qed.

Lemma length_insert_sorted (x : real) (l : list real) :
  List.length (insert_sorted x l) = S (List.length l).
Proof.
  induction l as [| y l IH]; simpl; [reflexivity |].
  destruct (real_leb x y); simpl; [reflexivity | now rewrite IH].
Qed.

Lemma length_sort (l : list real) : List.length (sort l) = List.length l.
Proof.
  unfold sort. induction l as [| x l IH]; simpl; [reflexivity |].
  now rewrite length_insert_sorted, IH.
Qed.

Lemma all_fin (arr : list real) :
  (forall r, In r arr -> exists q, r = Fin q) -> arr = map Fin (map fin_value arr).
Proof.
  induction arr as [| r arr IH]; intros H; simpl; [reflexivity |].
  destruct (H r (or_introl eq_refl)) as [q ->]. simpl. f_equal.
  apply IH. intros x Hx. apply H. now right.
Qed.

Lemma sorted_nth (qs : list Qc) :
  StronglySorted real_le (map Fin qs) ->
  forall i j, (i <= j < List.length qs)%nat -> (nth i qs 0 <= nth j qs 0)%Qc.
Proof.
  induction qs as [| a qs IH]; simpl; intros Hs i j Hij; [lia |].
  apply StronglySorted_inv in Hs as [Hs Hall].
  destruct j as [| j]; [replace i with 0%nat by lia; apply Qcle_refl |].
  destruct i as [| i]; [| apply IH; [exact Hs | lia]].
  rewrite Forall_forall in Hall.
  assert (Hin : In (Fin (nth j qs 0%Qc)) (map Fin qs))
    by (apply in_map, nth_In; lia).
  apply Hall in Hin. unfold real_le in Hin. simpl in Hin. now apply Qcleb_le.
Qed.

Lemma sorted_nthq (qs : list Qc) :
  StronglySorted real_le (map Fin qs) ->
  forall i j, 0 <= i <= j -> j < Z.of_nat (List.length qs) ->
              (nthq qs i <= nthq qs j)%Qc.
Proof. intros Hs i j Hij Hj. unfold nthq. apply sorted_nth; [exact Hs | lia]. Qed.

Lemma nthq_bounds (qs : list Qc) (lo hi : Qc) (k : Z) :
  (forall q, In q qs -> (lo <= q)%Qc /\ (q <= hi)%Qc) ->
  0 <= k < Z.of_nat (List.length qs) ->
  (lo <= nthq qs k)%Qc /\ (nthq qs k <= hi)%Qc.
Proof. intros H Hk. apply H. unfold nthq. apply nth_In. lia. Qed.

(** The quantiles of a sorted finite sample: each lies between the ends of
    the sample, and a larger level never gives a smaller quantile. *)
Lemma quantile_sorted_fin (qs : list Qc) (lo hi q1 q2 : Qc) :
  qs <> [] ->
  StronglySorted real_le (map Fin qs) ->
  (forall q, In q qs -> (lo <= q)%Qc /\ (q <= hi)%Qc) ->
  (0 <= q1)%Qc -> (q1 <= q2)%Qc -> (q2 < 1)%Qc ->
  exists v1 v2,
    quantile_sorted (map Fin qs) q1 = Num (Fin v1)
    /\ quantile_sorted (map Fin qs) q2 = Num (Fin v2)
    /\ (lo <= v1)%Qc /\ (v1 <= v2)%Qc /\ (v2 <= hi)%Qc.
Proof.
  intros Hne Hs Hb H0 H12 H1.
  destruct qs as [| a [| b qs']] eqn:Eqs; [contradiction | |].
  - simpl map. rewrite !quantile_sorted_single. exists a, a.
    destruct (Hb a (or_introl eq_refl)). repeat split; trivial. apply Qcle_refl.
  - rewrite <- Eqs in *. clear Hne.
    set (n := Z.of_nat (List.length qs)).
    assert (Hn : 2 <= n) by (unfold n; rewrite Eqs; simpl List.length; lia).
    assert (H0' : (0 <= q2)%Qc) by (eapply Qcle_trans; eauto).
    assert (H1' : (q1 < 1)%Qc) by (eapply Qcle_lt_trans; eauto).
    rewrite (quantile_sorted_interp qs q1 Hn H0 H1').
    rewrite (quantile_sorted_interp qs q2 Hn H0' H1).
    fold n. set (N := Q2Qc (inject_Z (n - 1))).
    assert (HN : (0 < N)%Qc).
    { unfold N. qc2q. change 0%Q with (inject_Z 0). rewrite <- Zlt_Qlt. lia. }
    assert (Hx1 : (0 <= q1 * N)%Qc) by (clearbody N; clear - H0 HN; qc2q; nra).
    assert (Hx12 : (q1 * N <= q2 * N)%Qc) by (clearbody N; clear - H12 HN; qc2q; nra).
    assert (Hx2 : (q2 * N < N)%Qc) by (clearbody N; clear - H1 HN; qc2q; nra).
    assert (Hx0 : (0 <= q2 * N)%Qc) by (eapply Qcle_trans; eauto).
    assert (Hx1' : (q1 * N < N)%Qc) by (eapply Qcle_lt_trans; eauto).
    pose proof (sorted_nthq qs Hs) as Hsorted.
    eexists. eexists. split; [reflexivity |]. split; [reflexivity |].
    destruct (interp_between qs Hsorted (q1 * N)%Qc Hx1 Hx1') as [L1 _].
    destruct (interp_between qs Hsorted (q2 * N)%Qc Hx0 Hx2) as [_ U2].
    pose proof (floor_range (q1 * N)%Qc (n - 1) Hx1 Hx1') as P1.
    pose proof (floor_range (q2 * N)%Qc (n - 1) Hx0 Hx2) as P2.
    destruct (nthq_bounds qs lo hi (Qfloor (q1 * N)%Qc) Hb) as [Lo _]; [fold n; lia |].
    destruct (nthq_bounds qs lo hi (Qfloor (q2 * N)%Qc + 1) Hb) as [_ Hi]; [fold n; lia |].
    split; [eapply Qcle_trans; eauto |].
    split; [now apply interp_mono | eapply Qcle_trans; eauto].
Qed.

Lemma quantile_nonempty (xs : list float) (q : Qc) :
  dropna xs <> [] -> quantile xs q = quantile_sorted (sort (dropna xs)) q.
Proof. unfold quantile. destruct (dropna xs); [contradiction | reflexivity]. Qed.

Lemma level_50 : (0 <= Q2Qc (5 # 10))%Qc /\ (Q2Qc (5 # 10) <= Q2Qc (75 # 100))%Qc.
Proof. split; vm_compute; discriminate. Qed.

Lemma level_90 : (Q2Qc (75 # 100) <= Q2Qc (9 # 10))%Qc /\ (Q2Qc (9 # 10) < 1)%Qc.
Proof. split; [vm_compute; discriminate | vm_compute; reflexivity]. Qed.

Lemma percentiles_of_finite (ratio : list float) (lo hi : Qc) :
  dropna ratio <> [] ->
  (forall r, In r (dropna ratio) ->
     exists q, r = Fin q /\ (lo <= q)%Qc /\ (q <= hi)%Qc) ->
  exists a b c,
    describe_percentiles ratio
    = {| p50 := Num (Fin a); p75 := Num (Fin b); p90 := Num (Fin c) |}
    /\ (lo <= a)%Qc /\ (a <= b)%Qc /\ (b <= c)%Qc /\ (c <= hi)%Qc.
Proof.
  intros Hne Hfin. unfold describe_percentiles.
  rewrite !quantile_nonempty by exact Hne.
  set (arr := sort (dropna ratio)).
  assert (Harr : forall r, In r arr -> exists q, r = Fin q /\ (lo <= q)%Qc /\ (q <= hi)%Qc)
    by (intros r Hr; apply Hfin; now apply SortFacts.In_sort).
  assert (Hmap : arr = map Fin (map fin_value arr)).
  { apply all_fin. intros r Hr. destruct (Harr r Hr) as (q & -> & _). eauto. }
  set (qs := map fin_value arr) in *.
  assert (Hqs : qs <> []).
  { intros E. apply Hne. apply length_zero_iff_nil.
    rewrite <- (length_sort (dropna ratio)). fold arr. rewrite Hmap, E. reflexivity. }
  assert (Hs : StronglySorted real_le (map Fin qs))
    by (rewrite <- Hmap; apply sort_sorted).
  assert (Hb : forall q, In q qs -> (lo <= q)%Qc /\ (q <= hi)%Qc).
  { intros q Hq. assert (Hin : In (Fin q) arr) by (rewrite Hmap; now apply in_map).
    destruct (Harr _ Hin) as (q' & E & Hq'). now inversion E. }
  rewrite Hmap.
  destruct level_50 as [L0 L1]. destruct level_90 as [L2 L3].
  destruct (quantile_sorted_fin qs lo hi _ _ Hqs Hs Hb L0 L1
              (Qcle_lt_trans _ _ _ L2 L3)) as (a & b & -> & Eb & Ha & Hab & _).
  destruct (quantile_sorted_fin qs lo hi _ _ Hqs Hs Hb (Qcle_trans _ _ _ L0 L1) L2 L3)
    as (b' & c & Eb' & -> & _ & Hbc & Hc).
  rewrite Eb in Eb'. injection Eb' as <-.
  exists a, b, c. rewrite Eb. auto.
Qed.

(** X17.  On a ratio column whose non-NaN cells are finite, the three
    percentiles are finite, ordered, and lie between any two bounds of
    those cells. *)
Theorem percentiles_ordered_and_bounded (ratio : list float) (lo hi : Qc) :
  dropna ratio <> [] ->
  (forall r, In r (dropna ratio) ->
     exists q, r = Fin q /\ (lo <= q)%Qc /\ (q <= hi)%Qc) ->
  exists a b c,
    describe_percentiles ratio
    = {| p50 := Num (Fin a); p75 := Num (Fin b); p90 := Num (Fin c) |}
    /\ (lo <= a)%Qc /\ (a <= b)%Qc /\ (b <= c)%Qc /\ (c <= hi)%Qc.
Proof. apply percentiles_of_finite. Qed.

Lemma percentiles_ordered_and_bounded_witness :
  exists a b c,
    describe_percentiles (ratio_of_close 3 (map of_Z [10; 12; 11; 15; 9]))
    = {| p50 := Num (Fin a); p75 := Num (Fin b); p90 := Num (Fin c) |}
    /\ (1 <= a)%Qc /\ (a <= b)%Qc /\ (b <= c)%Qc /\ (c <= Q2Qc 2)%Qc.
Proof.
  apply (percentiles_ordered_and_bounded
           (ratio_of_close 3 (map of_Z [10; 12; 11; 15; 9])) 1%Qc (Q2Qc 2)).
  - vm_compute. discriminate.
  - intros r Hr. vm_compute in Hr.
    repeat (destruct Hr as [<- | Hr];
            [eexists; split; [reflexivity | split; vm_compute; discriminate] |]).
    contradiction.
Defined.

End QuantileFacts.

Module PercentileExtra.

Import Float FloatFacts Store PrepTarget Examples RollingFacts SortFacts QuantileDefs QuantileFacts.

Lemma length_ratio_of_close (window : nat) (close : list float) :
  List.length (ratio_of_close window close) = List.length close.
Proof.
  unfold ratio_of_close, ratio_column, rolling_max_column.
  rewrite length_map, length_combine, length_rolling_max. lia.
Qed.

Lemma upper_bound_exists (qs : list Qc) : exists hi, forall q, In q qs -> (q <= hi)%Qc.
Proof.
  induction qs as [| a qs [hi IH]].
  - exists 0%Qc. intros q [].
  - destruct (Qclt_le_dec hi a) as [H | H].
    + exists a. intros q [<- | Hq]; [apply Qcle_refl |].
      eapply Qcle_trans; [now apply IH | now apply Qclt_le_weak].
    + exists hi. intros q [<- | Hq]; [exact H | now apply IH].
Qed.

(** X18.  With positive finite closes in the range the call returns finite
    percentiles with [1 <= p50 <= p75 <= p90]. *)
Theorem percentiles_at_least_one (t : table) (a b : string) (window : Z) :
  1 <= window ->
  read_sql_query t a b <> [] ->
  (forall row, In row (read_sql_query t a b) ->
     exists c, snd row = Num (Fin c) /\ (0 < c)%Qc) ->
  exists x y z,
    calculate_target_percentiles t a b window
    = inr {| p50 := Num (Fin x); p75 := Num (Fin y); p90 := Num (Fin z) |}
    /\ (1 <= x)%Qc /\ (x <= y)%Qc /\ (y <= z)%Qc.
Proof.
  intros Hw Hne Hpos.
  assert (Hnum : exists r, In (Num r) (map snd (read_sql_query t a b))).
  { destruct (read_sql_query t a b) as [| row rows]; [contradiction |].
    destruct (Hpos row (or_introl eq_refl)) as (c & Hc & _).
    exists (Fin c). left. exact Hc. }
  rewrite (calculate_on_rows t a b window Hnum Hw).
  set (close := map snd (read_sql_query t a b)).
  set (ratio := ratio_of_close (Z.to_nat window) close).
  assert (Hclose : forall j, (j < List.length close)%nat ->
            exists c, nth_error close j = Some (Num (Fin c)) /\ (0 < c)%Qc).
  { intros j Hj. destruct (nth_error close j) as [x |] eqn:E;
      [| apply nth_error_None in E; lia].
    pose proof (nth_error_In _ _ E) as Hin. unfold close in Hin.
    apply in_map_iff in Hin as (row & <- & Hrow).
    destruct (Hpos row Hrow) as (c & -> & Hc). eauto. }
  assert (Hratio : forall x, In x ratio -> exists q, x = Num (Fin q) /\ (1 <= q)%Qc).
  { intros x Hx. apply In_nth_error in Hx as [i Hi].
    assert (Hlt : (i < List.length close)%nat).
    { rewrite <- (length_ratio_of_close (Z.to_nat window)). apply nth_error_Some.
      fold ratio. rewrite Hi. discriminate. }
    destruct (RollingExtra.ratio_ge_one close (Z.to_nat window) i) as (q & Hq & Hq1);
      [lia | exact Hlt | intros j Hj; apply Hclose; lia |].
    fold ratio in Hq. rewrite Hi in Hq. injection Hq as ->. eauto. }
  assert (Hsample : forall r, In r (dropna ratio) -> exists q, r = Fin q /\ (1 <= q)%Qc).
  { intros r Hr. apply In_dropna in Hr. destruct (Hratio _ Hr) as (q & E & Hq).
    inversion E. eauto. }
  assert (Hne' : dropna ratio <> []).
  { destruct ratio as [| x ratio'] eqn:E.
    - exfalso. apply (f_equal (@List.length _)) in E. unfold ratio in E.
      rewrite length_ratio_of_close in E. unfold close in E. rewrite length_map in E.
      destruct (read_sql_query t a b); [contradiction | discriminate].
    - destruct (Hratio x (or_introl eq_refl)) as (q & -> & _). discriminate. }
  destruct (upper_bound_exists (map fin_value (dropna ratio))) as [hi Hhi].
  destruct (percentiles_of_finite ratio 1%Qc hi Hne') as (x & y & z & E & H1 & H2 & H3 & _).
  { intros r Hr. destruct (Hsample r Hr) as (q & -> & Hq).
    exists q. split; [reflexivity |]. split; [exact Hq |].
    apply Hhi. change q with (fin_value (Fin q)). now apply in_map. }
  exists x, y, z. rewrite E. auto.
Qed.

Lemma percentiles_at_least_one_witness :
  exists x y z,
    example_result
    = inr {| p50 := Num (Fin x); p75 := Num (Fin y); p90 := Num (Fin z) |}
    /\ (1 <= x)%Qc /\ (x <= y)%Qc /\ (y <= z)%Qc.
Proof.
  apply (percentiles_at_least_one example_table "2024-01-01 00:00" "2024-01-01 00:04" 3).
  - lia.
  - vm_compute. discriminate.
  - intros row Hrow. vm_compute in Hrow.
    repeat (destruct Hrow as [<- | Hrow]; [eexists; split; reflexivity |]).
    contradiction.
Defined.

Lemma dropna_perm (xs ys : list float) :
  Permutation xs ys -> Permutation (dropna xs) (dropna ys).
Proof.
  induction 1 as [| x l l' _ IH | x y l | l l' l'' _ IH1 _ IH2].
  - constructor.
  - destruct x; simpl; [now constructor | exact IH].
  - destruct x, y; simpl; try reflexivity. apply perm_swap.
  - now transitivity (dropna l').
Qed.

(** X19.  The percentiles depend on which ratios there are, not on the
    order of the rows that carry them. *)
Theorem percentiles_ignore_row_order (ratio1 ratio2 : list float) :
  Permutation ratio1 ratio2 ->
  describe_percentiles ratio1 = describe_percentiles ratio2.
Proof.
  intros P. apply dropna_perm in P.
  assert (E : sort (dropna ratio1) = sort (dropna ratio2)).
  { apply sorted_perm_eq; try apply sort_sorted.
    rewrite !sort_perm. exact P. }
  assert (Q : forall q, quantile ratio1 q = quantile ratio2 q).
  { intros q. unfold quantile.
    destruct (dropna ratio1) as [| a l1] eqn:E1.
    - apply Permutation_nil in P. now rewrite P.
    - destruct (dropna ratio2) as [| b l2] eqn:E2.
      + symmetry in P. apply Permutation_nil in P. discriminate.
      + now rewrite E. }
  unfold describe_percentiles. now rewrite !Q.
Qed.

Lemma percentiles_ignore_row_order_witness :
  describe_percentiles [of_Z 3; NaN; of_Z 1; of_Z 2]
  = describe_percentiles [of_Z 1; of_Z 2; of_Z 3; NaN].
Proof.
  apply percentiles_ignore_row_order.
  apply Permutation_sym.
  apply (Permutation_trans (l' := [of_Z 1; of_Z 2; NaN; of_Z 3])).
  - do 2 apply perm_skip. apply perm_swap.
  - apply (Permutation_trans (l' := [of_Z 1; NaN; of_Z 2; of_Z 3])).
    + apply perm_skip. apply perm_swap. 
    + apply (Permutation_trans (l' := [NaN; of_Z 1; of_Z 2; of_Z 3])).
      * apply perm_swap.
      * apply (Permutation_trans (l' := [NaN; of_Z 1; of_Z 3; of_Z 2])).
        -- do 2 apply perm_skip. apply perm_swap.
        -- apply (Permutation_trans (l' := [NaN; of_Z 3; of_Z 1; of_Z 2])).
           ++ apply perm_skip. apply perm_swap.
           ++ apply perm_swap.
Defined.

End PercentileExtra.

